(** * vulnerablecode: the package/vulnerability models and the istio resolver

    A shallow embedding of [vulnerabilities/models.py] (the [Package] and
    [PackageRelatedVulnerability] models) and of the version-range resolver
    exercised by [vulnerabilities/tests/test_istio.py].

    Conventions.
    - A database table is the list of its rows, each row a primary key paired
      with the field values of the model instance.
    - A Python exception is a value of [exn]; code that may raise returns a
      [result].  Code that mutates returns the new state next to its result,
      also when it raises: Python does not undo assignments on an exception.
    - Django runs the [validators] of a field in [full_clean] only; neither
      [save] nor [objects.create] calls it.  What a write is checked
      against is what the database itself checks. *)

From Stdlib Require Import List String Ascii NArith ZArith Arith Bool Lia DecimalString.
From Stdlib Require Import Permutation.
Import ListNotations.
Open Scope string_scope.
Open Scope list_scope.
Open Scope nat_scope.

(* ------------------------------------------------------------------ *)
(** ** Exceptions and results *)

Inductive exn : Type :=
| DoesNotExist
| MultipleObjectsReturned
| IntegrityError
| DataError
| OverflowError
| ValueError
| TypeError
| ValidationError (message : string).

Inductive result (A : Type) : Type :=
| Ok (a : A)
| Raise (e : exn).
Arguments Ok {A} a.
Arguments Raise {A} e.

(* ------------------------------------------------------------------ *)
(** ** PackageRelatedVulnerability (models.py, lines 199-261) *)

(** Modelled from the spec: [MAX_CONFIDENCE] is imported from
    [vulnerabilities.improver], which is not among the sources; the spec
    (section 6) gives its value, 100. *)
Definition MAX_CONFIDENCE : Z := 100%Z.

(** The fields of one instance.  [package] and [vulnerability] are foreign
    keys (the primary keys of the rows they point to); [confidence] holds a
    Python integer, of any sign and size until the database is asked to
    store it; [fix] is a keyword of Rocq, hence [fix_]. *)
Record PackageRelatedVulnerability : Type := {
  package : nat;
  vulnerability : nat;
  created_by : string;
  confidence : Z;
  fix_ : bool
}.

(** Field defaults of the model: [confidence] defaults to [MAX_CONFIDENCE],
    [fix] to [False]; [created_by] may be blank. *)
Definition default_confidence : Z := MAX_CONFIDENCE.

Definition new_relation (p v : nat) : PackageRelatedVulnerability :=
  {| package := p; vulnerability := v; created_by := "";
     confidence := default_confidence; fix_ := false |}.

(** The validators declared on [confidence]:
    [MinValueValidator(0)] and [MaxValueValidator(MAX_CONFIDENCE)]. *)
Definition confidence_validators (c : Z) : bool :=
  (0 <=? c)%Z && (c <=? MAX_CONFIDENCE)%Z.

(** A stored row: primary key and field values. *)
Definition Row : Type := nat * PackageRelatedVulnerability.

(** The table behind [PackageRelatedVulnerability.objects]. *)
Definition Table : Type := list Row.

Definition same_pair (v p : nat) (r : Row) : bool :=
  (vulnerability (snd r) =? v) && (package (snd r) =? p).

(** [objects.get(vulnerability=v, package=p)]: the one matching row, or
    [DoesNotExist], or [MultipleObjectsReturned]. *)
Definition objects_get (v p : nat) (db : Table) : result Row :=
  match filter (same_pair v p) db with
  | [] => Raise DoesNotExist
  | [r] => Ok r
  | _ :: _ :: _ => Raise MultipleObjectsReturned
  end.

(** The primary key the database gives to the next inserted row: any unused
    key would do; rows are never deleted, so one above every key in use. *)
Definition next_pk (db : Table) : nat := S (list_max (map fst db)).

(** The UPDATE of a row: all fields of the row with the given primary key
    are rewritten.  Nothing in the sources deletes rows, so a fetched row is
    still there to update. *)
Definition update_row (existing : Row) (db : Table) : Table :=
  map (fun r => if fst r =? fst existing then existing else r) db.

(** What the database, or its driver, checks of the field values of a row
    it is asked to write, whatever the other rows are: the range of the
    integer column, the CHECK constraint of a [PositiveIntegerField], the
    length of a [varchar] column, the foreign keys.  [None] means the values
    are accepted; otherwise the write is refused with the given exception
    and nothing is stored.  These checks belong to the database backend, not
    to the sources, and are a parameter of the model. *)
Definition checks : Type := PackageRelatedVulnerability -> option exn.

Definition accepted (db_checks : checks) (inst : PackageRelatedVulnerability)
  : bool :=
  match db_checks inst with
  | None => true
  | Some _ => false
  end.

(** What [logger.info] is called with. *)
Inductive log : Type :=
| NoLog
| ConfidenceImproved (p v : nat) (c : Z)
| NewRelationship (p v : nat) (f : bool) (c : Z).

(** The three assignments of lines 240-242 on the fetched instance. *)
Definition overwrite (existing self : PackageRelatedVulnerability)
  : PackageRelatedVulnerability :=
  {| package := package existing;
     vulnerability := vulnerability existing;
     created_by := created_by self;
     confidence := confidence self;
     fix_ := fix_ self |}.

Section Database.

Variable db_checks : checks.

(** [objects.create(...)]: an INSERT.  The field values are checked first;
    then [Meta.unique_together = ("package", "vulnerability")], a unique
    constraint of the table: the database refuses a second row for a pair
    with [IntegrityError].  A refused INSERT stores nothing. *)
Definition objects_create (inst : PackageRelatedVulnerability) (db : Table)
  : result Row * Table :=
  match db_checks inst with
  | Some e => (Raise e, db)
  | None =>
      if existsb (same_pair (vulnerability inst) (package inst)) db
      then (Raise IntegrityError, db)
      else let r := (next_pk db, inst) in (Ok r, db ++ [r])
  end.

(** [existing.save()] of an instance fetched from the table: an UPDATE of
    the row with the instance's primary key, refused, the row left as it
    was, when the database does not accept the new field values. *)
Definition save (existing : Row) (db : Table) : result unit * Table :=
  match db_checks (snd existing) with
  | Some e => (Raise e, db)
  | None => (Ok tt, update_row existing db)
  end.

(** [update_or_create] (lines 230-261).  Only [DoesNotExist] is caught; any
    other exception of [get], and any exception of [save] or [create],
    propagates, and the [logger.info] after the refused write is not
    reached. *)
Definition update_or_create (self : PackageRelatedVulnerability) (db : Table)
  : result log * Table :=
  match objects_get (vulnerability self) (package self) db with
  | Ok existing =>
      if (confidence (snd existing) <? confidence self)%Z
      then
        match save (fst existing, overwrite (snd existing) self) db with
        | (Ok _, db') =>
            (Ok (ConfidenceImproved (package self) (vulnerability self)
                                    (confidence self)), db')
        | (Raise e, db') => (Raise e, db')
        end
      else (Ok NoLog, db)
  | Raise DoesNotExist =>
      match objects_create self db with
      | (Ok _, db') =>
          (Ok (NewRelationship (package self) (vulnerability self)
                               (fix_ self) (confidence self)), db')
      | (Raise e, db') => (Raise e, db')
      end
  | Raise e => (Raise e, db)
  end.

(** A sequence of claims applied one after the other, each in a call of its
    own: a call that raises does not keep the later ones from running. *)
Definition apply_all (claims : list PackageRelatedVulnerability) (db : Table)
  : Table :=
  fold_left (fun d c => snd (update_or_create c d)) claims db.

End Database.

(** The checks of the two backends a Django project of this kind runs on.
    The column behind [confidence] is a 32-bit integer on PostgreSQL, which
    refuses a value outside it with [DataError], and a 64-bit integer on
    SQLite, whose driver refuses a larger Python integer with
    [OverflowError]; both carry the CHECK constraint [confidence >= 0] of a
    [PositiveIntegerField], violated with [IntegrityError]; PostgreSQL also
    enforces the [max_length=100] of [created_by] ([varchar(100)],
    [DataError]), SQLite does not. *)
Inductive backend : Type :=
| PostgreSQL
| SQLite.

Definition integer_min (b : backend) : Z :=
  match b with
  | PostgreSQL => (-2147483648)%Z
  | SQLite => (-9223372036854775808)%Z
  end.

Definition integer_max (b : backend) : Z :=
  match b with
  | PostgreSQL => 2147483647%Z
  | SQLite => 9223372036854775807%Z
  end.

Definition out_of_range (b : backend) : exn :=
  match b with
  | PostgreSQL => DataError
  | SQLite => OverflowError
  end.

Definition enforces_varchar (b : backend) : bool :=
  match b with
  | PostgreSQL => true
  | SQLite => false
  end.

Definition column_checks (b : backend) : checks :=
  fun inst =>
    if ((confidence inst <? integer_min b)%Z
        || (integer_max b <? confidence inst)%Z)
    then Some (out_of_range b)
    else if enforces_varchar b && (100 <? String.length (created_by inst))
    then Some DataError
    else if (confidence inst <? 0)%Z
    then Some IntegrityError
    else None.

(** Well-formedness of a table, as checks: primary keys are distinct, and the
    unique constraint holds. *)
Fixpoint distinct (l : list nat) : bool :=
  match l with
  | [] => true
  | x :: l' => negb (existsb (Nat.eqb x) l') && distinct l'
  end.

Definition pk_unique (db : Table) : bool := distinct (map fst db).

Definition pair_count (v p : nat) (db : Table) : nat :=
  List.length (filter (same_pair v p) db).

Definition unique_together (db : Table) : bool :=
  forallb (fun r => pair_count (vulnerability (snd r)) (package (snd r)) db =? 1) db.

(** The largest confidence among the claims and a starting value. *)
Definition max_from (start : Z) (claims : list PackageRelatedVulnerability)
  : Z :=
  fold_right Z.max start (map confidence claims).

(** The claim of largest confidence in a sequence, the first one on ties,
    stated without reference to [update_or_create]. *)
Definition max_confidence (claims : list PackageRelatedVulnerability) : Z :=
  match claims with
  | [] => 0%Z
  | c :: rest => max_from (confidence c) rest
  end.

Definition first_of_max (claims : list PackageRelatedVulnerability)
  : option PackageRelatedVulnerability :=
  find (fun c => (confidence c =? max_confidence claims)%Z) claims.

Definition claims_on (v p : nat) (claims : list PackageRelatedVulnerability)
  : list PackageRelatedVulnerability :=
  filter (fun c => (vulnerability c =? v) && (package c =? p)) claims.

(* ------------------------------------------------------------------ *)
(** ** Package and set_package_url (models.py, lines 128-196) *)

(** The values [to_dict] hands out and the model fields hold: [None], a
    string, or the qualifiers mapping. *)
Inductive value : Type :=
| VNone
| VStr (s : string)
| VDict (d : list (string * string)).

(** Python truth value: [None], the empty string and the empty mapping are
    false. *)
Definition truthy (x : value) : bool :=
  match x with
  | VNone => false
  | VStr s => negb (String.length s =? 0)
  | VDict d => negb (List.length d =? 0)
  end.

(** [len(value)]: characters of a string (one per byte here, as for ASCII
    text), keys of a mapping.  The guard [value and ...] keeps [len] away
    from [None]. *)
Definition len (x : value) : nat :=
  match x with
  | VNone => 0
  | VStr s => String.length s
  | VDict d => List.length d
  end.

(** [value or None]. *)
Definition or_None (x : value) : value := if truthy x then x else VNone.

Inductive field : Type :=
| f_type | f_namespace | f_name | f_version | f_qualifiers | f_subpath.

Definition field_name (f : field) : string :=
  match f with
  | f_type => "type"
  | f_namespace => "namespace"
  | f_name => "name"
  | f_version => "version"
  | f_qualifiers => "qualifiers"
  | f_subpath => "subpath"
  end.

Module PackageURL.

(** A [packageurl.PackageURL]: [type] and [name] are required strings, the
    others optional; [qualifiers] is a mapping. *)
Record t : Type := {
  type : string;
  namespace : option string;
  name : string;
  version : option string;
  qualifiers : list (string * string);
  subpath : option string
}.

Definition opt (o : option string) : value :=
  match o with Some s => VStr s | None => VNone end.

(** [to_dict()], not encoded: the six components in the order of the
    named tuple, the qualifiers as a mapping. *)
Definition to_dict (u : t) : list (field * value) :=
  [ (f_type, VStr (type u));
    (f_namespace, opt (namespace u));
    (f_name, VStr (name u));
    (f_version, opt (version u));
    (f_qualifiers, VDict (qualifiers u));
    (f_subpath, opt (subpath u)) ].

End PackageURL.

(** The package-URL fields of a [Package] instance. *)
Record Package : Type := {
  type : value;
  namespace : value;
  name : value;
  version : value;
  qualifiers : value;
  subpath : value
}.

Definition getattr (self : Package) (f : field) : value :=
  match f with
  | f_type => type self
  | f_namespace => namespace self
  | f_name => name self
  | f_version => version self
  | f_qualifiers => qualifiers self
  | f_subpath => subpath self
  end.

Definition setattr (self : Package) (f : field) (x : value) : Package :=
  match f with
  | f_type =>
      {| type := x; namespace := namespace self; name := name self;
         version := version self; qualifiers := qualifiers self;
         subpath := subpath self |}
  | f_namespace =>
      {| type := type self; namespace := x; name := name self;
         version := version self; qualifiers := qualifiers self;
         subpath := subpath self |}
  | f_name =>
      {| type := type self; namespace := namespace self; name := x;
         version := version self; qualifiers := qualifiers self;
         subpath := subpath self |}
  | f_version =>
      {| type := type self; namespace := namespace self; name := name self;
         version := x; qualifiers := qualifiers self;
         subpath := subpath self |}
  | f_qualifiers =>
      {| type := type self; namespace := namespace self; name := name self;
         version := version self; qualifiers := x;
         subpath := subpath self |}
  | f_subpath =>
      {| type := type self; namespace := namespace self; name := name self;
         version := version self; qualifiers := qualifiers self;
         subpath := x |}
  end.

(** The argument of [set_package_url]: a string or a [PackageURL]. *)
Inductive package_url_arg : Type :=
| AsString (s : string)
| AsPackageURL (u : PackageURL.t).

Definition dquote : string := String "034"%char EmptyString.

(** f'Value too long for field "{field_name}".' *)
Definition too_long_message (f : field) : string :=
  ("Value too long for field " ++ dquote ++ field_name f ++ dquote ++ ".")%string.

Section SetPackageUrl.

(** The [max_length] of the five [CharField]s that [Package] inherits from
    [PackageURLMixin], and [PackageURL.from_string]: both belong to the
    packageurl library and are parameters here. *)
Variable mixin_max_length : field -> nat.
Variable from_string : string -> result PackageURL.t.

(** [self._meta.get_field(field_name).max_length].  [Package] overrides
    [qualifiers] with a [JSONField] declared without [max_length] (lines
    144-150): its [max_length] is [None]. *)
Definition max_length (f : field) : option nat :=
  match f with
  | f_qualifiers => None
  | _ => Some (mixin_max_length f)
  end.

(** [value and len(value) > model_field.max_length]: the comparison is
    evaluated for a truthy value only, and an [int > None] comparison
    raises [TypeError]. *)
Definition too_long (f : field) (x : value) : result bool :=
  if truthy x then
    match max_length f with
    | Some m => Ok (m <? len x)
    | None => Raise TypeError
    end
  else Ok false.

(** The loop of lines 187-193 over the remaining items. *)
Fixpoint set_fields (items : list (field * value)) (self : Package)
  : result unit * Package :=
  match items with
  | [] => (Ok tt, self)
  | (f, x) :: rest =>
      match too_long f x with
      | Raise e => (Raise e, self)
      | Ok true => (Raise (ValidationError (too_long_message f)), self)
      | Ok false => set_fields rest (setattr self f (or_None x))
      end
  end.

Definition set_package_url (self : Package) (package_url : package_url_arg)
  : result unit * Package :=
  match package_url with
  | AsPackageURL u => set_fields (PackageURL.to_dict u) self
  | AsString s =>
      match from_string s with
      | Ok u => set_fields (PackageURL.to_dict u) self
      | Raise e => (Raise e, self)
      end
  end.

End SetPackageUrl.

(** The assignments the loop has made after [done] items. *)
Definition assign_all (done : list (field * value)) (self : Package) : Package :=
  fold_left (fun s fx => setattr s (fst fx) (or_None (snd fx))) done self.

(** The lengths [PackageURLMixin] declares in the packageurl library, used
    for concrete runs. *)
Definition packageurl_max_length (f : field) : nat :=
  match f with
  | f_type => 16
  | f_namespace => 255
  | f_name => 100
  | f_version => 100
  | f_qualifiers => 1024
  | f_subpath => 200
  end.

(** A [from_string] for concrete runs that involve no string argument. *)
Definition no_from_string (s : string) : result PackageURL.t := Raise ValueError.

Definition blank_package : Package :=
  {| type := VNone; namespace := VNone; name := VNone; version := VNone;
     qualifiers := VDict []; subpath := VNone |}.

(* ------------------------------------------------------------------ *)
(** ** Two callers of update_or_create on one table *)

Module Race.

(** [update_or_create] issues two separate statements against the
    database, the SELECT of [objects.get] (line 236) and then the UPDATE of
    [existing.save()] (line 243) or the INSERT of [objects.create] (line
    251), with no transaction and no lock around them.  A call is at one of
    three points. *)
Inductive call : Type :=
| Start (self : PackageRelatedVulnerability)
| Fetched (self : PackageRelatedVulnerability) (got : result Row)
| Returned (outcome : result log).

(** Two improvers and the table they share. *)
Record system : Type := {
  first : call;
  second : call;
  table : Table
}.

Section Statements.

Variable db_checks : checks.

(** The next statement of one call. *)
Definition step (c : call) (db : Table) : call * Table :=
  match c with
  | Start self =>
      (Fetched self (objects_get (vulnerability self) (package self) db), db)
  | Fetched self (Ok existing) =>
      if (confidence (snd existing) <? confidence self)%Z
      then
        match save db_checks (fst existing, overwrite (snd existing) self) db with
        | (Ok _, db') =>
            (Returned (Ok (ConfidenceImproved (package self) (vulnerability self)
                                              (confidence self))), db')
        | (Raise e, db') => (Returned (Raise e), db')
        end
      else (Returned (Ok NoLog), db)
  | Fetched self (Raise DoesNotExist) =>
      match objects_create db_checks self db with
      | (Ok _, db') =>
          (Returned (Ok (NewRelationship (package self) (vulnerability self)
                                         (fix_ self) (confidence self))), db')
      | (Raise e, db') => (Returned (Raise e), db')
      end
  | Fetched self (Raise e) => (Returned (Raise e), db)
  | Returned o => (Returned o, db)
  end.

(** A schedule names, statement by statement, the caller that runs next:
    [true] the first, [false] the second. *)
Definition sched_step (s : system) (who : bool) : system :=
  if who
  then let (c, db) := step (first s) (table s) in
       {| first := c; second := second s; table := db |}
  else let (c, db) := step (second s) (table s) in
       {| first := first s; second := c; table := db |}.

Definition run (schedule : list bool) (s : system) : system :=
  fold_left sched_step schedule s.

End Statements.

Definition racing (a b : PackageRelatedVulnerability) (db : Table) : system :=
  {| first := Start a; second := Start b; table := db |}.

(** The fetched copy a caller holds still describes a row of the table, up
    to the three fields another caller may have rewritten. *)
Definition holds_row (c : call) (db : Table) : Prop :=
  match c with
  | Fetched _ (Ok existing) =>
      exists e, In (fst existing, e) db
                /\ package e = package (snd existing)
                /\ vulnerability e = vulnerability (snd existing)
  | _ => True
  end.

End Race.

(* ------------------------------------------------------------------ *)
(** ** The version-range resolver *)

Module Resolver.

(** The resolver ([IstioImporter.process_file] and the version helpers it
    calls) is not among the sources; its test is.  The definitions of this
    module follow section 4.1 of the spec and are checked against the
    expected data of [test_process_file]. *)

(** Modelled from the spec: the [Version] of
    [vulnerabilities.package_managers], absent from the sources, as the
    numeric components of a release, [1.1.17] being [[1; 1; 17]]. *)
Definition Version : Type := list N.

Definition all_zero (a : Version) : bool := forallb (N.eqb 0) a.

(** Modelled from the spec: the comparison of versions, absent from the
    sources, by "release-version semantics (never lexical string order)":
    component by component as numbers, a missing component counting as
    zero ([1.1] and [1.1.0] are the same release). *)
Fixpoint compare (a b : Version) : comparison :=
  match a, b with
  | [], _ => if all_zero b then Eq else Lt
  | _, [] => if all_zero a then Eq else Gt
  | x :: a', y :: b' =>
      match N.compare x y with
      | Eq => compare a' b'
      | c => c
      end
  end.

Definition leb (a b : Version) : bool :=
  match compare a b with Gt => false | _ => true end.

Definition ltb (a b : Version) : bool :=
  match compare a b with Lt => true | _ => false end.

(** Modelled from the spec: a catalog "ordered by release-version
    semantics", the order the absent Version Catalog Provider returns:
    every version is at most every later one. *)
Fixpoint ordered (known : list Version) : bool :=
  match known with
  | [] => true
  | v :: rest => forallb (leb v) rest && ordered rest
  end.

Definition from_start (range_start : option Version) (v : Version) : bool :=
  match range_start with Some s => leb s v | None => true end.

Definition up_to_end (range_end : option Version) (v : Version) : bool :=
  match range_end with Some e => leb v e | None => true end.

(** Modelled from the spec: [resolve(range_start, range_end,
    known_versions)] of section 4.1, whose code is absent from the sources:
    the known versions within the bounds, and the first known version past
    [range_end]; an absent bound does not restrict, and without [range_end]
    there is no patched version. *)
Definition resolve (range_start range_end : option Version)
           (known_versions : list Version)
  : list Version * option Version :=
  (filter (fun v => from_start range_start v && up_to_end range_end v)
          known_versions,
   match range_end with
   | Some e => find (ltb e) known_versions
   | None => None
   end).

(** The dotted text of a version, as it appears in a package URL. *)
Definition component_text (n : N) : string :=
  NilEmpty.string_of_uint (N.to_uint n).

Definition version_text (v : Version) : string :=
  String.concat "." (map component_text v).

(** One package-type view of a project: the type and name it is published
    under, and the catalog of that identity. *)
Record View : Type := {
  view_type : string;
  view_name : string;
  catalog : list Version
}.

Definition purl_of (w : View) (v : Version) : PackageURL.t :=
  {| PackageURL.type := view_type w;
     PackageURL.namespace := None;
     PackageURL.name := view_name w;
     PackageURL.version := Some (version_text v);
     PackageURL.qualifiers := [];
     PackageURL.subpath := None |}.

(** [AffectedPackage]: a vulnerable package version and the version that
    patches it, when one is known. *)
Record AffectedPackage : Type := {
  vulnerable_package : PackageURL.t;
  patched_package : option PackageURL.t
}.

Definition range : Type := option Version * option Version.

(** The resolver's answer for one range under one view. *)
Definition resolve_view (r : range) (w : View)
  : list Version * option Version :=
  resolve (fst r) (snd r) (catalog w).

(** Modelled from the spec: the objects the absent [process_file] emits for
    one range under one view, in the shape [test_process_file] expects: each
    vulnerable version paired with the patched version. *)
Definition affected_in_view (r : range) (w : View) : list AffectedPackage :=
  let (vulnerable, patched) := resolve_view r w in
  map (fun v => {| vulnerable_package := purl_of w v;
                   patched_package := option_map (purl_of w) patched |})
      vulnerable.

(** Modelled from the spec: all ranges of an advisory under all views, in
    the order [test_process_file] expects: view by view, and within a view
    range by range, results concatenated. *)
Definition affected_packages (ranges : list range) (views : list View)
  : list AffectedPackage :=
  flat_map (fun w => flat_map (fun r => affected_in_view r w) ranges) views.

(** The catalog of the spec's scenario, and the one [setUpClass] installs,
    which has [1.9.1] in addition. *)
Definition scenario_catalog : list Version :=
  [ [1;0;0]; [1;1;0]; [1;1;1]; [1;1;17]; [1;2;1]; [1;2;7];
    [1;3;0]; [1;3;1]; [1;3;2] ]%N.

Definition test_catalog : list Version := scenario_catalog ++ [[1;9;1]%N].

(** "1.1 to 1.1.15", "1.2 to 1.2.6", "1.3 to 1.3.1". *)
Definition range_1_1 : range := (Some [1;1]%N, Some [1;1;15]%N).
Definition range_1_2 : range := (Some [1;2]%N, Some [1;2;6]%N).
Definition range_1_3 : range := (Some [1;3]%N, Some [1;3;1]%N).

Definition golang_view : View :=
  {| view_type := "golang"; view_name := "istio"; catalog := test_catalog |}.
Definition github_view : View :=
  {| view_type := "github"; view_name := "istio"; catalog := test_catalog |}.

Definition purl (t n v : string) : PackageURL.t :=
  {| PackageURL.type := t; PackageURL.namespace := None;
     PackageURL.name := n; PackageURL.version := Some v;
     PackageURL.qualifiers := []; PackageURL.subpath := None |}.

Definition affected (t vulnerable patched : string) : AffectedPackage :=
  {| vulnerable_package := purl t "istio" vulnerable;
     patched_package := Some (purl t "istio" patched) |}.

(** [expected_data] of [test_process_file], lines 86-207. *)
Definition expected_affected_packages : list AffectedPackage :=
  [ affected "golang" "1.1.0" "1.1.17";
    affected "golang" "1.1.1" "1.1.17";
    affected "golang" "1.2.1" "1.2.7";
    affected "golang" "1.3.0" "1.3.2";
    affected "golang" "1.3.1" "1.3.2";
    affected "github" "1.1.0" "1.1.17";
    affected "github" "1.1.1" "1.1.17";
    affected "github" "1.2.1" "1.2.7";
    affected "github" "1.3.0" "1.3.2";
    affected "github" "1.3.1" "1.3.2" ].

End Resolver.

(* ------------------------------------------------------------------ *)
(** ** Concrete inputs used in the examples below *)

Definition sample_claim (c : Z) (f : bool) (who : string)
  : PackageRelatedVulnerability :=
  {| package := 7; vulnerability := 3; created_by := who;
     confidence := c; fix_ := f |}.

(** pkg:deb/curl@7.50.3-1?arch=amd64 *)
Definition deb_curl : PackageURL.t :=
  {| PackageURL.type := "deb";
     PackageURL.namespace := None;
     PackageURL.name := "curl";
     PackageURL.version := Some "7.50.3-1";
     PackageURL.qualifiers := [("arch", "amd64")];
     PackageURL.subpath := None |}.

(** A package URL whose name has 101 characters. *)
Definition long_name : string := string_of_list_ascii (repeat "a"%char 101).

Definition deb_long_name : PackageURL.t :=
  {| PackageURL.type := "deb";
     PackageURL.namespace := None;
     PackageURL.name := long_name;
     PackageURL.version := Some "1.0";
     PackageURL.qualifiers := [];
     PackageURL.subpath := None |}.

(** The package URL the argument of [set_package_url] stands for. *)
Definition parsed (from_string : string -> result PackageURL.t)
           (package_url : package_url_arg) : result PackageURL.t :=
  match package_url with
  | AsPackageURL u => Ok u
  | AsString s => from_string s
  end.

Definition field_eqb (f g : field) : bool :=
  match f, g with
  | f_type, f_type | f_namespace, f_namespace | f_name, f_name
  | f_version, f_version | f_qualifiers, f_qualifiers
  | f_subpath, f_subpath => true
  | _, _ => false
  end.

(** The edge stored for a pair, if any. *)
Definition edge_at (v p : nat) (db : Table) : option PackageRelatedVulnerability :=
  match objects_get v p db with
  | Ok r => Some (snd r)
  | Raise _ => None
  end.

(** What one claim does to the edge of its pair. *)
Definition merge (stored : option PackageRelatedVulnerability)
           (c : PackageRelatedVulnerability)
  : option PackageRelatedVulnerability :=
  match stored with
  | None => Some c
  | Some e => if (confidence e <? confidence c)%Z
              then Some (overwrite e c) else Some e
  end.

(** The ways a call of [update_or_create] can go, with what each returns
    or raises and the table it leaves. *)
Inductive uoc_case (db_checks : checks) (self : PackageRelatedVulnerability)
          (db : Table) : result log -> Table -> Prop :=
| uoc_created :
    objects_get (vulnerability self) (package self) db = Raise DoesNotExist ->
    db_checks self = None ->
    uoc_case db_checks self db
             (Ok (NewRelationship (package self) (vulnerability self)
                                  (fix_ self) (confidence self)))
             (db ++ [(next_pk db, self)])
| uoc_improved pk e :
    objects_get (vulnerability self) (package self) db = Ok (pk, e) ->
    (confidence e < confidence self)%Z ->
    db_checks self = None ->
    uoc_case db_checks self db
             (Ok (ConfidenceImproved (package self) (vulnerability self)
                                     (confidence self)))
             (update_row (pk, overwrite e self) db)
| uoc_kept pk e :
    objects_get (vulnerability self) (package self) db = Ok (pk, e) ->
    (confidence self <= confidence e)%Z ->
    uoc_case db_checks self db (Ok NoLog) db
| uoc_raised :
    objects_get (vulnerability self) (package self) db
    = Raise MultipleObjectsReturned ->
    uoc_case db_checks self db (Raise MultipleObjectsReturned) db
| uoc_refused_create x :
    objects_get (vulnerability self) (package self) db = Raise DoesNotExist ->
    db_checks self = Some x ->
    uoc_case db_checks self db (Raise x) db
| uoc_refused_save pk e x :
    objects_get (vulnerability self) (package self) db = Ok (pk, e) ->
    (confidence e < confidence self)%Z ->
    db_checks self = Some x ->
    uoc_case db_checks self db (Raise x) db.

(** What every statement of every caller preserves. *)
Definition race_invariant (s : Race.system) : Prop :=
  pk_unique (Race.table s) = true
  /\ (forall v p, pair_count v p (Race.table s) <= 1)
  /\ Race.holds_row (Race.first s) (Race.table s)
  /\ Race.holds_row (Race.second s) (Race.table s).

(* ------------------------------------------------------------------ *)
(** ** Notions used to state further properties *)

(** A field value passes the check of line 190: it is empty, or it belongs
    to a field with a declared [max_length] and is no longer than that. *)
Definition fits (m : field -> nat) (fx : field * value) : Prop :=
  truthy (snd fx) = false \/ (fst fx <> f_qualifiers /\ len (snd fx) <= m (fst fx)).

(** pkg:deb/curl@7.50.3-1 *)
Definition deb_curl_plain : PackageURL.t :=
  {| PackageURL.type := "deb";
     PackageURL.namespace := None;
     PackageURL.name := "curl";
     PackageURL.version := Some "7.50.3-1";
     PackageURL.qualifiers := [];
     PackageURL.subpath := None |}.

(** Where a caller applying claim [a] stands with respect to the table: a
    fetched answer is still the current one; a call that has returned
    normally has left an edge at least as confident as [a]; a call that has
    raised was refused its write by the database. *)
Definition honoured (db_checks : checks) (a : PackageRelatedVulnerability)
           (c : Race.call) (db : Table) : Prop :=
  match c with
  | Race.Start a' => a' = a
  | Race.Fetched a' got =>
      a' = a /\ got = objects_get (vulnerability a) (package a) db
  | Race.Returned (Ok _) =>
      exists pk e, objects_get (vulnerability a) (package a) db = Ok (pk, e)
                   /\ (confidence a <= confidence e)%Z
  | Race.Returned (Raise x) => db_checks a = Some x
  end.

(* ------------------------------------------------------------------ *)
(** * Properties *)

Section Properties.

(** What the database checks of the values it is asked to write: any
    checks, for everything that follows. *)
Variable db_checks : checks.

(** ** Tables: primary keys, lookups, inserts and updates *)

Lemma distinct_NoDup (l : list nat) : distinct l = true -> NoDup l.
Proof.
  induction l as [|x l IH]; simpl; intro H.
  - constructor.
  - apply andb_true_iff in H as [Hx Hl].
    constructor; [|now apply IH].
    intro Hin. apply negb_true_iff in Hx.
    assert (existsb (Nat.eqb x) l = true) as E.
    { apply existsb_exists. exists x. split; [assumption|apply Nat.eqb_refl]. }
    congruence.
Qed.

Lemma NoDup_distinct (l : list nat) : NoDup l -> distinct l = true.
Proof.
  induction 1 as [|x l Hx _ IH]; simpl; [reflexivity|].
  rewrite IH, andb_true_r. apply negb_true_iff.
  destruct (existsb (Nat.eqb x) l) eqn:E; [|reflexivity].
  apply existsb_exists in E as (y & Hy & Exy).
  apply Nat.eqb_eq in Exy. subst y. contradiction.
Qed.

Lemma NoDup_fst_functional (A : Type) (l : list (nat * A)) k a b :
  NoDup (map fst l) -> In (k, a) l -> In (k, b) l -> a = b.
Proof.
  induction l as [|[k' c] l IH]; simpl; intros Hnd Ha Hb; [contradiction|].
  inversion Hnd as [|? ? Hnotin Hnd']; subst.
  destruct Ha as [Ha|Ha], Hb as [Hb|Hb].
  - congruence.
  - inversion Ha; subst. exfalso. apply Hnotin.
    change k with (fst (k, b)). now apply in_map.
  - inversion Hb; subst. exfalso. apply Hnotin.
    change k with (fst (k, a)). now apply in_map.
  - now apply IH.
Qed.

Lemma pk_unique_functional (db : Table) k a b :
  pk_unique db = true -> In (k, a) db -> In (k, b) db -> a = b.
Proof.
  intro H. apply NoDup_fst_functional. now apply distinct_NoDup.
Qed.

Lemma same_pair_spec v p (r : Row) :
  same_pair v p r = true <-> vulnerability (snd r) = v /\ package (snd r) = p.
Proof.
  unfold same_pair. rewrite andb_true_iff, !Nat.eqb_eq. reflexivity.
Qed.

Lemma same_pair_fields v p (r r' : Row) :
  vulnerability (snd r') = vulnerability (snd r) ->
  package (snd r') = package (snd r) ->
  same_pair v p r' = same_pair v p r.
Proof. unfold same_pair. intros -> ->. reflexivity. Qed.

Lemma objects_get_Ok v p db r :
  objects_get v p db = Ok r <-> filter (same_pair v p) db = [r].
Proof.
  unfold objects_get.
  destruct (filter (same_pair v p) db) as [|a [|b l]]; split; intro H;
    try discriminate; congruence.
Qed.

Lemma objects_get_DoesNotExist v p db :
  objects_get v p db = Raise DoesNotExist <-> filter (same_pair v p) db = [].
Proof.
  unfold objects_get.
  destruct (filter (same_pair v p) db) as [|a [|b l]]; split; intro H;
    try discriminate; reflexivity.
Qed.

Lemma objects_get_In v p db r :
  objects_get v p db = Ok r ->
  In r db /\ vulnerability (snd r) = v /\ package (snd r) = p.
Proof.
  intro H. apply objects_get_Ok in H.
  assert (In r (filter (same_pair v p) db)) as Hin by (rewrite H; now left).
  apply filter_In in Hin as [Hin Hp]. apply same_pair_spec in Hp. tauto.
Qed.

Lemma objects_get_raises v p db e :
  objects_get v p db = Raise e -> e = DoesNotExist \/ e = MultipleObjectsReturned.
Proof.
  unfold objects_get.
  destruct (filter (same_pair v p) db) as [|a [|b l]]; intro H;
    inversion H; auto.
Qed.

Lemma existsb_filter_nil (A : Type) (f : A -> bool) l :
  existsb f l = false <-> filter f l = [].
Proof.
  induction l as [|a l IH]; simpl; [tauto|].
  destruct (f a); simpl; [split; discriminate|exact IH].
Qed.

Lemma filter_map_commute (A : Type) (P : A -> bool) (f : A -> A) l :
  (forall a, In a l -> P (f a) = P a) ->
  filter P (map f l) = map f (filter P l).
Proof.
  induction l as [|a l IH]; simpl; intro H; [reflexivity|].
  rewrite (H a) by now left.
  destruct (P a); simpl; rewrite IH; auto.
Qed.

Lemma map_fst_save r db : map fst (update_row r db) = map fst db.
Proof.
  unfold update_row. rewrite map_map. apply map_ext. intro a.
  destruct (fst a =? fst r) eqn:E; [|reflexivity].
  apply Nat.eqb_eq in E. now rewrite E.
Qed.

Lemma length_save r db : List.length (update_row r db) = List.length db.
Proof. unfold update_row. apply length_map. Qed.

(** Saving a fetched row with its pair of foreign keys unchanged rewrites
    that row and no other. *)
Lemma filter_save v p pk e e' db :
  pk_unique db = true -> In (pk, e) db ->
  vulnerability e' = vulnerability e -> package e' = package e ->
  filter (same_pair v p) (update_row (pk, e') db) =
  map (fun r => if fst r =? pk then (pk, e') else r) (filter (same_pair v p) db).
Proof.
  intros Hu Hin Hv Hp. unfold update_row. simpl fst.
  apply filter_map_commute. intros [k a] Ha. simpl fst.
  destruct (k =? pk) eqn:E; [|reflexivity].
  apply Nat.eqb_eq in E. subst k.
  rewrite (pk_unique_functional db pk a e Hu Ha Hin).
  apply same_pair_fields; assumption.
Qed.

Lemma next_pk_above db r : In r db -> fst r < next_pk db.
Proof.
  intro H. unfold next_pk.
  assert (fst r <= list_max (map fst db)); [|lia].
  pose proof (proj1 (list_max_le (map fst db) (list_max (map fst db))) (le_n _)) as F.
  rewrite Forall_forall in F. apply F. now apply in_map.
Qed.

Lemma NoDup_snoc (A : Type) (l : list A) x :
  NoDup l -> ~ In x l -> NoDup (l ++ [x]).
Proof.
  induction l as [|a l IH]; simpl; intros Hnd Hx.
  - constructor; [tauto|constructor].
  - inversion Hnd as [|? ? Ha Hl]; subst. constructor.
    + rewrite in_app_iff. simpl. intuition congruence.
    + apply IH; tauto.
Qed.

Lemma pk_unique_insert inst db :
  pk_unique db = true -> pk_unique (db ++ [(next_pk db, inst)]) = true.
Proof.
  intro H. apply NoDup_distinct. apply distinct_NoDup in H.
  rewrite map_app. simpl. apply NoDup_snoc; [assumption|].
  intro Hin. apply in_map_iff in Hin as (r & Hr & Hin).
  apply next_pk_above in Hin. lia.
Qed.

(** ** update_or_create, case by case *)

(** The instance fetched for the pair of a claim differs from the claim in
    the three fields the assignments of lines 240-242 overwrite: after them
    it carries the claim's values. *)
Lemma overwrite_fetched self db pk e :
  objects_get (vulnerability self) (package self) db = Ok (pk, e) ->
  overwrite e self = self.
Proof.
  intro G. apply objects_get_In in G as (_ & Gv & Gp). simpl in Gv, Gp.
  unfold overwrite. rewrite Gv, Gp. now destruct self.
Qed.

Lemma update_or_create_absent self db :
  objects_get (vulnerability self) (package self) db = Raise DoesNotExist ->
  db_checks self = None ->
  update_or_create db_checks self db =
  (Ok (NewRelationship (package self) (vulnerability self) (fix_ self)
                       (confidence self)),
   db ++ [(next_pk db, self)]).
Proof.
  intros H A. unfold update_or_create, objects_create. rewrite H, A.
  apply objects_get_DoesNotExist, existsb_filter_nil in H. now rewrite H.
Qed.

Lemma update_or_create_improves self db pk e :
  objects_get (vulnerability self) (package self) db = Ok (pk, e) ->
  (confidence e < confidence self)%Z ->
  db_checks self = None ->
  update_or_create db_checks self db =
  (Ok (ConfidenceImproved (package self) (vulnerability self) (confidence self)),
   update_row (pk, overwrite e self) db).
Proof.
  intros H Hc A. unfold update_or_create, save. rewrite H. simpl.
  apply Z.ltb_lt in Hc. rewrite Hc.
  now rewrite (overwrite_fetched _ _ _ _ H), A.
Qed.

Lemma update_or_create_keeps self db pk e :
  objects_get (vulnerability self) (package self) db = Ok (pk, e) ->
  (confidence self <= confidence e)%Z ->
  update_or_create db_checks self db = (Ok NoLog, db).
Proof.
  intros H Hc. unfold update_or_create. rewrite H. simpl.
  apply Z.ltb_ge in Hc. now rewrite Hc.
Qed.

Lemma update_or_create_multiple self db :
  objects_get (vulnerability self) (package self) db = Raise MultipleObjectsReturned ->
  update_or_create db_checks self db = (Raise MultipleObjectsReturned, db).
Proof. intro H. unfold update_or_create. now rewrite H. Qed.

Lemma update_or_create_refused_create self db x :
  objects_get (vulnerability self) (package self) db = Raise DoesNotExist ->
  db_checks self = Some x ->
  update_or_create db_checks self db = (Raise x, db).
Proof.
  intros H R. unfold update_or_create, objects_create. now rewrite H, R.
Qed.

Lemma update_or_create_refused_save self db pk e x :
  objects_get (vulnerability self) (package self) db = Ok (pk, e) ->
  (confidence e < confidence self)%Z ->
  db_checks self = Some x ->
  update_or_create db_checks self db = (Raise x, db).
Proof.
  intros H Hc R. unfold update_or_create, save. rewrite H. simpl.
  apply Z.ltb_lt in Hc. rewrite Hc.
  now rewrite (overwrite_fetched _ _ _ _ H), R.
Qed.

Lemma update_or_create_case self db :
  uoc_case db_checks self db (fst (update_or_create db_checks self db))
           (snd (update_or_create db_checks self db)).
Proof.
  destruct (objects_get (vulnerability self) (package self) db) as [[pk e]|x] eqn:G.
  - destruct (Z.lt_ge_cases (confidence e) (confidence self)) as [Hc|Hc].
    + destruct (db_checks self) as [x|] eqn:A.
      * rewrite (update_or_create_refused_save _ _ _ _ _ G Hc A).
        now apply uoc_refused_save with pk e.
      * rewrite (update_or_create_improves _ _ _ _ G Hc A).
        now apply uoc_improved.
    + rewrite (update_or_create_keeps _ _ _ _ G Hc). now apply uoc_kept with pk e.
  - destruct (objects_get_raises _ _ _ _ G); subst x.
    + destruct (db_checks self) as [x|] eqn:A.
      * rewrite (update_or_create_refused_create _ _ _ G A).
        now apply uoc_refused_create.
      * rewrite (update_or_create_absent _ _ G A). now apply uoc_created.
    + rewrite (update_or_create_multiple _ _ G). now apply uoc_raised.
Qed.

(** A claim whose values the database refuses leaves the table as it was. *)
Lemma update_or_create_refused self db x :
  db_checks self = Some x -> snd (update_or_create db_checks self db) = db.
Proof.
  intro R.
  destruct (update_or_create_case self db); try reflexivity; congruence.
Qed.

Lemma filter_save_fetched v p self pk e db :
  pk_unique db = true ->
  objects_get (vulnerability self) (package self) db = Ok (pk, e) ->
  filter (same_pair v p) (update_row (pk, overwrite e self) db) =
  map (fun r => if fst r =? pk then (pk, overwrite e self) else r)
      (filter (same_pair v p) db).
Proof.
  intros Hu G. apply objects_get_In in G as (Hin & _ & _).
  now apply filter_save with (e := e).
Qed.

Lemma update_or_create_pk_unique self db :
  pk_unique db = true ->
  pk_unique (snd (update_or_create db_checks self db)) = true.
Proof.
  intro Hu. destruct (update_or_create_case self db); try assumption.
  - now apply pk_unique_insert.
  - unfold pk_unique. now rewrite map_fst_save.
Qed.

Lemma update_or_create_pair_count self db v p :
  pk_unique db = true -> pair_count v p db <= 1 ->
  pair_count v p (snd (update_or_create db_checks self db)) <= 1.
Proof.
  intros Hu Hc. unfold pair_count in *.
  destruct (update_or_create_case self db) as [G A|pk e G _ A|pk e G _|G|x G R|pk e x G _ R];
    try assumption.
  - rewrite filter_app, length_app. simpl.
    destruct (same_pair v p (next_pk db, self)) eqn:E; simpl; [|lia].
    apply same_pair_spec in E as [Ev Ep]. simpl in Ev, Ep. subst v p.
    apply objects_get_DoesNotExist in G. rewrite G. simpl. lia.
  - rewrite (filter_save_fetched _ _ _ _ _ _ Hu G), length_map. assumption.
Qed.

(** The lookup of the claim's own pair after the call. *)
Lemma update_or_create_get_same self db :
  pk_unique db = true ->
  objects_get (vulnerability self) (package self)
              (snd (update_or_create db_checks self db)) =
  match objects_get (vulnerability self) (package self) db with
  | Ok (pk, e) =>
      if accepted db_checks self && (confidence e <? confidence self)%Z
      then Ok (pk, overwrite e self) else Ok (pk, e)
  | Raise DoesNotExist =>
      if accepted db_checks self then Ok (next_pk db, self)
      else Raise DoesNotExist
  | Raise x => Raise x
  end.
Proof.
  intro Hu. unfold accepted.
  destruct (update_or_create_case self db) as [G A|pk e G Hc A|pk e G Hc|G|x G R|pk e x G Hc R];
    rewrite G.
  - rewrite A. apply objects_get_Ok. rewrite filter_app.
    apply objects_get_DoesNotExist in G. rewrite G. simpl.
    unfold same_pair. simpl. now rewrite !Nat.eqb_refl.
  - rewrite A. apply Z.ltb_lt in Hc. rewrite Hc. simpl. apply objects_get_Ok.
    rewrite (filter_save_fetched _ _ _ _ _ _ Hu G).
    apply objects_get_Ok in G. rewrite G. simpl. now rewrite Nat.eqb_refl.
  - apply Z.ltb_ge in Hc. rewrite Hc. now rewrite andb_false_r.
  - reflexivity.
  - now rewrite R.
  - now rewrite R.
Qed.

(** The lookup of any other pair is not affected. *)
Lemma update_or_create_get_other self db v p :
  pk_unique db = true ->
  (vulnerability self, package self) <> (v, p) ->
  objects_get v p (snd (update_or_create db_checks self db)) = objects_get v p db.
Proof.
  intros Hu Hne. unfold objects_get.
  destruct (update_or_create_case self db) as [G A|pk e G _ A|pk e G _|G|x G R|pk e x G _ R];
    try reflexivity.
  - rewrite filter_app. simpl.
    destruct (same_pair v p (next_pk db, self)) eqn:E.
    + apply same_pair_spec in E as [Ev Ep]. simpl in Ev, Ep. congruence.
    + now rewrite app_nil_r.
  - rewrite (filter_save_fetched _ _ _ _ _ _ Hu G).
    replace (map _ (filter (same_pair v p) db)) with (filter (same_pair v p) db);
      [reflexivity|].
    rewrite <- (map_id (filter (same_pair v p) db)) at 1.
    apply map_ext_in. intros [k a] Hin. apply filter_In in Hin as [Hin Hp].
    simpl fst. destruct (k =? pk) eqn:E; [|reflexivity].
    apply Nat.eqb_eq in E. subst k. exfalso.
    apply objects_get_In in G as (Hin' & Gv & Gp). simpl in Gv, Gp.
    rewrite (pk_unique_functional db pk a e Hu Hin Hin') in Hp.
    apply same_pair_spec in Hp as [Hv Hp]. simpl in Hv, Hp. congruence.
Qed.

Lemma apply_all_pk_unique claims db :
  pk_unique db = true -> pk_unique (apply_all db_checks claims db) = true.
Proof.
  revert db. induction claims as [|c cs IH]; intros db Hu; [assumption|].
  simpl. apply IH. now apply update_or_create_pk_unique.
Qed.

Lemma apply_all_app cs cs' db :
  apply_all db_checks (cs ++ cs') db
  = apply_all db_checks cs' (apply_all db_checks cs db).
Proof. unfold apply_all. apply fold_left_app. Qed.

Lemma unique_together_spec db :
  unique_together db = true <-> forall v p, pair_count v p db <= 1.
Proof.
  unfold unique_together. rewrite forallb_forall. split.
  - intros H v p.
    destruct (filter (same_pair v p) db) as [|r l] eqn:F;
      unfold pair_count; rewrite F; simpl; [lia|].
    assert (In r (filter (same_pair v p) db)) as Hin by (rewrite F; now left).
    apply filter_In in Hin as [Hin Hp]. apply same_pair_spec in Hp as [Hv Hp].
    specialize (H r Hin). rewrite Hv, Hp in H. apply Nat.eqb_eq in H.
    unfold pair_count in H. rewrite F in H. simpl in H. lia.
  - intros H r Hin. apply Nat.eqb_eq.
    specialize (H (vulnerability (snd r)) (package (snd r))).
    assert (In r (filter (same_pair (vulnerability (snd r)) (package (snd r))) db)) as Hf.
    { apply filter_In. split; [assumption|]. now apply same_pair_spec. }
    unfold pair_count in *.
    destruct (filter (same_pair (vulnerability (snd r)) (package (snd r))) db);
      simpl in *; [contradiction|lia].
Qed.

Lemma apply_all_pair_count claims db v p :
  pk_unique db = true -> pair_count v p db <= 1 ->
  pair_count v p (apply_all db_checks claims db) <= 1.
Proof.
  revert db. induction claims as [|c cs IH]; intros db Hu Hc; [assumption|].
  simpl. apply IH.
  - now apply update_or_create_pk_unique.
  - now apply update_or_create_pair_count.
Qed.

Lemma objects_get_not_multiple v p db :
  pair_count v p db <= 1 -> objects_get v p db <> Raise MultipleObjectsReturned.
Proof.
  unfold pair_count, objects_get.
  destruct (filter (same_pair v p) db) as [|a [|b l]]; simpl; intros H E;
    try discriminate; lia.
Qed.

Lemma save_other x r db :
  fst r <> fst x -> In r (update_row x db) <-> In r db.
Proof.
  intro Hne. unfold update_row. rewrite in_map_iff. split.
  - intros (a & Ha & Hin). destruct (fst a =? fst x) eqn:E.
    + subst r. congruence.
    + now subst a.
  - intro Hin. exists r. split; [|assumption].
    apply Nat.eqb_neq in Hne. now rewrite Hne.
Qed.

(** ** The merge engine: claims C1, C3, C10 *)

(** C1. For every (package, vulnerability) pair and every claim whose values
    the database accepts: applied when no edge exists, the claim creates the
    edge, with its own field values; applied when an edge with confidence
    [c] exists, it replaces the edge's [confidence], [fix] and [created_by]
    when its confidence is strictly greater than [c].  Whatever its values,
    a claim that is not strictly greater, a tie included, leaves the whole
    table as it is, and so does a claim the database refuses. *)
Theorem update_or_create_transitions
        (self : PackageRelatedVulnerability) (db : Table) :
  pk_unique db = true ->
  (objects_get (vulnerability self) (package self) db = Raise DoesNotExist ->
   db_checks self = None ->
   update_or_create db_checks self db =
     (Ok (NewRelationship (package self) (vulnerability self) (fix_ self)
                          (confidence self)),
      db ++ [(next_pk db, self)])
   /\ objects_get (vulnerability self) (package self)
                  (snd (update_or_create db_checks self db))
      = Ok (next_pk db, self))
  /\
  (forall pk e,
      objects_get (vulnerability self) (package self) db = Ok (pk, e) ->
      ((confidence e < confidence self)%Z ->
       db_checks self = None ->
       objects_get (vulnerability self) (package self)
                   (snd (update_or_create db_checks self db)) =
       Ok (pk, {| package := package e; vulnerability := vulnerability e;
                  created_by := created_by self;
                  confidence := confidence self;
                  fix_ := fix_ self |}))
      /\
      ((confidence self <= confidence e)%Z ->
       update_or_create db_checks self db = (Ok NoLog, db)))
  /\
  (forall x, db_checks self = Some x ->
             snd (update_or_create db_checks self db) = db).
Proof.
  intro Hu. split; [|split].
  - intros G A. split; [now apply update_or_create_absent|].
    rewrite (update_or_create_get_same self db Hu), G.
    unfold accepted. now rewrite A.
  - intros pk e G. split.
    + intros Hc A. rewrite (update_or_create_get_same self db Hu), G.
      unfold accepted. rewrite A. apply Z.ltb_lt in Hc. now rewrite Hc.
    + intro Hc. now apply update_or_create_keeps with pk e.
  - intros x R. now apply update_or_create_refused with x.
Qed.

(** C3. At most one edge exists per (package, vulnerability) pair in every
    table reached by a sequence of [update_or_create] calls from a table that
    satisfies the unique constraint: the constraint still holds, no pair has
    more than one row, a further call either returns normally or raises the
    exception with which the database refuses the claim's values (never
    [MultipleObjectsReturned], never a violation of the unique constraint),
    and a call for a pair that already has an edge adds no row. *)
Theorem one_edge_per_pair
        (claims : list PackageRelatedVulnerability) (db : Table) :
  pk_unique db = true ->
  unique_together db = true ->
  unique_together (apply_all db_checks claims db) = true
  /\ (forall v p, pair_count v p (apply_all db_checks claims db) <= 1)
  /\ (forall self,
         (exists l, fst (update_or_create db_checks self
                                          (apply_all db_checks claims db)) = Ok l)
         \/ (exists x, db_checks self = Some x
                       /\ fst (update_or_create db_checks self
                                                (apply_all db_checks claims db))
                          = Raise x))
  /\ (forall self pk e,
         objects_get (vulnerability self) (package self)
                     (apply_all db_checks claims db)
         = Ok (pk, e) ->
         List.length (snd (update_or_create db_checks self
                                            (apply_all db_checks claims db)))
         = List.length (apply_all db_checks claims db)
         /\ pair_count (vulnerability self) (package self)
                       (snd (update_or_create db_checks self
                                              (apply_all db_checks claims db)))
            = 1).
Proof.
  intros Hu Ht.
  assert (forall v p, pair_count v p (apply_all db_checks claims db) <= 1) as Hall.
  { intros v p. apply apply_all_pair_count; [assumption|].
    now apply unique_together_spec. }
  pose proof (apply_all_pk_unique claims db Hu) as Hu'.
  set (db1 := apply_all db_checks claims db) in *.
  split; [now apply unique_together_spec|].
  split; [assumption|]. split.
  - intro self.
    destruct (update_or_create_case self db1) as [G A|pk e G _ A|pk e G _|G|x G R|pk e x G _ R];
      eauto.
    exfalso. revert G. apply objects_get_not_multiple, Hall.
  - intros self pk e G. split.
    + destruct (update_or_create_case self db1) as [G' A|pk' e' G' _ A|pk' e' G' _|G'|x G' R|pk' e' x G' _ R];
        try reflexivity; [congruence|apply length_save].
    + pose proof (update_or_create_get_same self db1 Hu') as S.
      rewrite G in S.
      unfold pair_count.
      destruct (accepted db_checks self && (confidence e <? confidence self)%Z);
        apply objects_get_Ok in S; now rewrite S.
Qed.

(** C10. A call of [update_or_create] that finds an existing edge changes at
    most the [confidence], [fix] and [created_by] of that one row: the row
    keeps its primary key, its package and its vulnerability, every other
    row is as before, no row is added, and when the incoming confidence is
    not strictly greater the table, and so every field of the edge, is
    unchanged. *)
Theorem update_or_create_frame
        (self : PackageRelatedVulnerability) (db : Table) (pk : nat)
        (e : PackageRelatedVulnerability) :
  pk_unique db = true ->
  objects_get (vulnerability self) (package self) db = Ok (pk, e) ->
  exists e',
    objects_get (vulnerability self) (package self)
                (snd (update_or_create db_checks self db)) = Ok (pk, e')
    /\ package e' = package e
    /\ vulnerability e' = vulnerability e
    /\ map fst (snd (update_or_create db_checks self db)) = map fst db
    /\ (forall r, fst r <> pk ->
                  In r (snd (update_or_create db_checks self db)) <-> In r db)
    /\ ((confidence self <= confidence e)%Z ->
        e' = e /\ snd (update_or_create db_checks self db) = db).
Proof.
  intros Hu G.
  pose proof (update_or_create_get_same self db Hu) as S. rewrite G in S.
  destruct (update_or_create_case self db) as [G' A|pk' e' G' Hc A|pk' e' G' Hc|G'|x G' R|pk' e' x G' Hc R];
    try congruence.
  - rewrite G in G'. inversion G'; subst pk' e'.
    exists (overwrite e self). unfold accepted in S. rewrite A in S.
    pose proof Hc as Hb. apply Z.ltb_lt in Hb. rewrite Hb in S. simpl in S.
    repeat split; try assumption; try reflexivity.
    + apply map_fst_save.
    + now apply (save_other (pk, overwrite e self)).
    + now apply (save_other (pk, overwrite e self)).
    + lia.
    + lia.
  - exists e. apply Z.ltb_ge in Hc.
    rewrite G in G'. inversion G'; subst pk' e'.
    rewrite Hc, andb_false_r in S.
    repeat split; try assumption; try reflexivity; tauto.
  - exists e. unfold accepted in S. rewrite R in S. simpl in S.
    repeat split; try assumption; try reflexivity; tauto.
Qed.

(** ** Sequences of claims on one pair: claim C2 *)

Lemma max_from_cons start c claims :
  max_from start (c :: claims) = Z.max (confidence c) (max_from start claims).
Proof. reflexivity. Qed.

Lemma max_from_ge start claims : (start <= max_from start claims)%Z.
Proof.
  induction claims as [|c cs IH]; [unfold max_from; simpl; lia|].
  rewrite max_from_cons. lia.
Qed.

Lemma max_from_swap a b claims :
  Z.max a (max_from b claims) = Z.max b (max_from a claims).
Proof.
  induction claims as [|c cs IH]; [unfold max_from; simpl; lia|].
  rewrite !max_from_cons. lia.
Qed.

Lemma max_from_absorb a b claims :
  (a <= b)%Z -> max_from b claims = Z.max b (max_from a claims).
Proof.
  intro H. rewrite max_from_swap. pose proof (max_from_ge b claims). lia.
Qed.

Lemma max_from_In start c claims :
  In c claims -> (confidence c <= max_from start claims)%Z.
Proof.
  induction claims as [|x l IH]; intro H; [contradiction|].
  rewrite max_from_cons. destruct H as [->|H]; [lia|]. specialize (IH H). lia.
Qed.

(** Above its starting value, the maximum is the maximum of the claims. *)
Lemma max_from_above start claims :
  (start < max_from start claims)%Z ->
  max_from start claims = max_confidence claims.
Proof.
  destruct claims as [|c cs]; [unfold max_from; simpl; lia|].
  rewrite max_from_cons. simpl max_confidence. intro H.
  rewrite max_from_swap in H |- *. pose proof (max_from_ge (confidence c) cs). lia.
Qed.

Lemma filter_all (A : Type) (f : A -> bool) l :
  forallb f l = true -> filter f l = l.
Proof.
  induction l as [|a l IH]; simpl; intro H; [reflexivity|].
  apply andb_true_iff in H as [Ha Hl]. now rewrite Ha, IH.
Qed.

Lemma update_or_create_edge_at self db v p :
  pk_unique db = true -> pair_count v p db <= 1 ->
  edge_at v p (snd (update_or_create db_checks self db)) =
  if (vulnerability self =? v) && (package self =? p)
     && accepted db_checks self
  then merge (edge_at v p db) self
  else edge_at v p db.
Proof.
  intros Hu Hc. unfold edge_at.
  destruct ((vulnerability self =? v) && (package self =? p)) eqn:E.
  - apply andb_true_iff in E as [Ev Ep].
    apply Nat.eqb_eq in Ev, Ep. subst v p.
    rewrite (update_or_create_get_same self db Hu). simpl andb.
    destruct (objects_get (vulnerability self) (package self) db)
      as [[pk e]|x] eqn:G; simpl.
    + destruct (accepted db_checks self); simpl; [|reflexivity].
      now destruct (confidence e <? confidence self)%Z.
    + destruct (objects_get_raises _ _ _ _ G); subst x.
      * now destruct (accepted db_checks self).
      * exfalso. revert G. now apply objects_get_not_multiple.
  - simpl. rewrite update_or_create_get_other; [reflexivity|assumption|].
    intro F. inversion F; subst.
    now rewrite !Nat.eqb_refl in E.
Qed.

(** The edge of a pair after a sequence of claims: the claims on the pair
    that the database accepts, merged in order; the others leave no trace. *)
Lemma apply_all_edge_at claims db v p :
  pk_unique db = true -> pair_count v p db <= 1 ->
  edge_at v p (apply_all db_checks claims db) =
  fold_left merge (filter (accepted db_checks) (claims_on v p claims))
            (edge_at v p db).
Proof.
  revert db. induction claims as [|c cs IH]; intros db Hu Hc; [reflexivity|].
  simpl apply_all. rewrite IH.
  - rewrite (update_or_create_edge_at c db v p Hu Hc). simpl claims_on.
    destruct ((vulnerability c =? v) && (package c =? p)); simpl; [|reflexivity].
    now destruct (accepted db_checks c).
  - now apply update_or_create_pk_unique.
  - now apply update_or_create_pair_count.
Qed.

(** Folding claims over a stored edge: the confidence ends at the maximum;
    the incumbent survives unless a claim is strictly above it, and then the
    first claim of maximal confidence supplies [fix] and [created_by]. *)
Lemma fold_merge_present claims : forall e0,
  exists e,
    fold_left merge claims (Some e0) = Some e
    /\ confidence e = max_from (confidence e0) claims
    /\ package e = package e0 /\ vulnerability e = vulnerability e0
    /\ ((max_from (confidence e0) claims <= confidence e0)%Z -> e = e0)
    /\ ((confidence e0 < max_from (confidence e0) claims)%Z ->
        exists c,
          find (fun c => (confidence c =? max_from (confidence e0) claims)%Z)
               claims = Some c
          /\ fix_ e = fix_ c /\ created_by e = created_by c).
Proof.
  induction claims as [|c cs IH]; intro e0.
  - exists e0. unfold max_from. simpl. repeat split; auto. lia.
  - simpl fold_left. rewrite max_from_cons.
    pose proof (max_from_ge (confidence e0) cs) as Hge.
    destruct (confidence e0 <? confidence c)%Z eqn:Hlt.
    + apply Z.ltb_lt in Hlt.
      destruct (IH (overwrite e0 c)) as (e & Hf & Hconf & Hp & Hv & Hkeep & Hnew).
      simpl confidence in *. simpl package in *. simpl vulnerability in *.
      assert (max_from (confidence c) cs
              = Z.max (confidence c) (max_from (confidence e0) cs)) as HM
          by (apply max_from_absorb; lia).
      rewrite HM in *.
      exists e. repeat split; try assumption; [intro; lia|].
      intros _. simpl find.
      destruct (confidence c =? Z.max (confidence c) (max_from (confidence e0) cs))%Z
        eqn:Hc.
      * exists c. apply Z.eqb_eq in Hc.
        rewrite (Hkeep ltac:(lia)). simpl. auto.
      * apply Z.eqb_neq in Hc. apply Hnew. lia.
    + apply Z.ltb_ge in Hlt.
      destruct (IH e0) as (e & Hf & Hconf & Hp & Hv & Hkeep & Hnew).
      assert (Z.max (confidence c) (max_from (confidence e0) cs)
              = max_from (confidence e0) cs) as HM by lia.
      rewrite HM.
      exists e. repeat split; try assumption.
      intro Hbelow. simpl find.
      destruct (confidence c =? max_from (confidence e0) cs)%Z eqn:Hc.
      * apply Z.eqb_eq in Hc. lia.
      * now apply Hnew.
Qed.

Lemma fold_merge_absent claims :
  0 < List.length claims ->
  exists e c,
    fold_left merge claims None = Some e
    /\ confidence e = max_confidence claims
    /\ first_of_max claims = Some c
    /\ fix_ e = fix_ c /\ created_by e = created_by c.
Proof.
  destruct claims as [|c cs]; simpl List.length; intro H; [lia|].
  destruct (fold_merge_present cs c) as (e & Hf & Hconf & _ & _ & Hkeep & Hnew).
  unfold first_of_max. simpl max_confidence. simpl fold_left.
  pose proof (max_from_ge (confidence c) cs) as Hge.
  simpl find.
  destruct (confidence c =? max_from (confidence c) cs)%Z eqn:Hc.
  - apply Z.eqb_eq in Hc. exists e, c.
    rewrite (Hkeep ltac:(lia)) in *. repeat split; auto.
  - apply Z.eqb_neq in Hc.
    destruct Hnew as (c' & Hfind & Hfix & Hby); [lia|].
    exists e, c'. repeat split; auto.
Qed.

(** C2. After any finite sequence of applied claims, for every pair that had
    no edge before and has at least one claim in the sequence, the claims on
    the pair being claims the database accepts: the stored edge's confidence
    is the maximum confidence among the claims on that pair, and its [fix]
    and [created_by] are those of the first claim carrying that maximum. *)
Theorem apply_all_keeps_maximum
        (claims : list PackageRelatedVulnerability) (db : Table) (v p : nat) :
  pk_unique db = true ->
  objects_get v p db = Raise DoesNotExist ->
  0 < List.length (claims_on v p claims) ->
  forallb (accepted db_checks) (claims_on v p claims) = true ->
  exists pk e c,
    objects_get v p (apply_all db_checks claims db) = Ok (pk, e)
    /\ confidence e = max_confidence (claims_on v p claims)
    /\ first_of_max (claims_on v p claims) = Some c
    /\ fix_ e = fix_ c
    /\ created_by e = created_by c.
Proof.
  intros Hu G Hlen Hacc.
  assert (pair_count v p db <= 1) as Hc.
  { unfold pair_count. apply objects_get_DoesNotExist in G. rewrite G. simpl. lia. }
  pose proof (apply_all_edge_at claims db v p Hu Hc) as E.
  rewrite (filter_all _ _ _ Hacc) in E.
  unfold edge_at at 2 in E. rewrite G in E.
  destruct (fold_merge_absent _ Hlen) as (e & c & Hf & Hconf & Hfirst & Hfix & Hby).
  rewrite Hf in E. unfold edge_at in E.
  destruct (objects_get v p (apply_all db_checks claims db)) as [[pk e1]|x];
    [|discriminate].
  simpl in E. inversion E; subst e1.
  exists pk, e, c. auto.
Qed.

(** ** The confidence bound: claim C9 *)

(** A claim within the declared bounds keeps every stored confidence within
    them. *)
Lemma update_or_create_bounded self db :
  Forall (fun r => (0 <= confidence (snd r) <= MAX_CONFIDENCE)%Z) db ->
  (0 <= confidence self <= MAX_CONFIDENCE)%Z ->
  Forall (fun r => (0 <= confidence (snd r) <= MAX_CONFIDENCE)%Z)
         (snd (update_or_create db_checks self db)).
Proof.
  intros Hdb Hself.
  destruct (update_or_create_case self db) as [G A|pk e G _ A|pk e G _|G|x G R|pk e x G _ R];
    try assumption.
  - apply Forall_app. split; [assumption|]. now constructor.
  - unfold update_row. apply Forall_map. simpl fst.
    eapply Forall_impl; [|exact Hdb].
    intros r Hr. now destruct (fst r =? pk).
Qed.

(** C9. [update_or_create] writes through [objects.create] and [save],
    which do not run the validators of [confidence]: a claim carrying 150 on
    an empty table is stored with confidence 150, and it also replaces an
    edge of confidence 100, on either backend; the default confidence is
    100. *)
Theorem confidence_above_maximum_is_stored :
  default_confidence = 100%Z
  /\ confidence_validators 150 = false
  /\ forall b : backend,
      update_or_create (column_checks b) (sample_claim 150 false "nginx") []
      = (Ok (NewRelationship 7 3 false 150),
         [(1, sample_claim 150 false "nginx")])
      /\ update_or_create (column_checks b) (sample_claim 150 false "nginx")
                          [(1, sample_claim 100 true "istio")]
         = (Ok (ConfidenceImproved 7 3 150),
            [(1, sample_claim 150 false "nginx")]).
Proof. repeat split; destruct b; reflexivity. Qed.

(** ** set_package_url: claims C7 and C8 *)

Lemma truthy_len x : truthy x = false -> len x = 0.
Proof.
  destruct x as [|s|d]; simpl; intro H; [reflexivity| |];
    apply negb_false_iff, Nat.eqb_eq in H; assumption.
Qed.

Lemma getattr_setattr self f x g :
  getattr (setattr self f x) g = if field_eqb f g then x else getattr self g.
Proof. destruct f, g; reflexivity. Qed.

Lemma field_eqb_eq f g : field_eqb f g = true <-> f = g.
Proof. destruct f, g; simpl; split; intro H; congruence. Qed.

Lemma getattr_assign_all_other done : forall self g,
  ~ In g (map fst done) -> getattr (assign_all done self) g = getattr self g.
Proof.
  induction done as [|[f x] done IH]; intros self g Hg; [reflexivity|].
  simpl in *. rewrite IH by tauto. rewrite getattr_setattr.
  destruct (field_eqb f g) eqn:E; [|reflexivity].
  apply field_eqb_eq in E. tauto.
Qed.

Lemma getattr_assign_all_in done : forall self g y,
  NoDup (map fst done) -> In (g, y) done ->
  getattr (assign_all done self) g = or_None y.
Proof.
  induction done as [|[f x] done IH]; intros self g y Hnd Hin; [contradiction|].
  simpl in *. inversion Hnd as [|? ? Hf Hnd']; subst.
  destruct Hin as [Hin|Hin].
  - inversion Hin; subst. rewrite getattr_assign_all_other by assumption.
    rewrite getattr_setattr.
    now replace (field_eqb g g) with true by (symmetry; now apply field_eqb_eq).
  - now apply IH.
Qed.

Lemma assign_all_app done more self :
  assign_all (done ++ more) self = assign_all more (assign_all done self).
Proof. unfold assign_all. apply fold_left_app. Qed.

(** Where the loop stops when it raises, and what it has assigned by then. *)
Lemma set_fields_raises m items : forall self e,
  fst (set_fields m items self) = Raise e ->
  exists done f x rest,
    items = done ++ (f, x) :: rest
    /\ snd (set_fields m items self) = assign_all done self
    /\ Forall (fun fx => too_long m (fst fx) (snd fx) = Ok false) done
    /\ (too_long m f x = Raise e
        \/ (too_long m f x = Ok true
            /\ e = ValidationError (too_long_message f))).
Proof.
  induction items as [|[f x] items IH]; intros self e H; [discriminate|].
  simpl in H |- *.
  destruct (too_long m f x) as [[|]|e'] eqn:T.
  - exists [], f, x, items. simpl in H. inversion H; subst.
    repeat split; auto.
  - destruct (IH _ _ H) as (done & f' & x' & rest & -> & Hs & Hd & He).
    exists ((f, x) :: done), f', x', rest. simpl. repeat split; auto.
  - exists [], f, x, items. simpl in H. inversion H; subst.
    repeat split; auto.
Qed.

Lemma set_fields_succeeds m items : forall self,
  Forall (fun fx => too_long m (fst fx) (snd fx) = Ok false) items ->
  set_fields m items self = (Ok tt, assign_all items self).
Proof.
  induction items as [|[f x] items IH]; intros self H; [reflexivity|].
  inversion H as [|? ? Hfx Hrest]; subst. simpl in *. rewrite Hfx.
  now apply IH.
Qed.

Lemma to_dict_fields u :
  map fst (PackageURL.to_dict u)
  = [f_type; f_namespace; f_name; f_version; f_qualifiers; f_subpath].
Proof. reflexivity. Qed.

Lemma NoDup_app_parts (A : Type) (l l' : list A) :
  NoDup (l ++ l') -> NoDup l /\ forall a, In a l' -> ~ In a l.
Proof.
  induction l as [|x l IH]; simpl; intro H.
  - split; [constructor|tauto].
  - inversion H as [|? ? Hx Hl]; subst. destruct (IH Hl) as [Hnd Hdis].
    split.
    + constructor; [|assumption]. rewrite in_app_iff in Hx. tauto.
    + intros a Ha [->|Hin]; [|now apply (Hdis a)].
      apply Hx. rewrite in_app_iff. tauto.
Qed.

Lemma to_dict_NoDup u : NoDup (map fst (PackageURL.to_dict u)).
Proof.
  rewrite to_dict_fields.
  repeat (constructor; [simpl; intuition discriminate|]). constructor.
Qed.

(** An item the check refuses stops the loop, there or earlier. *)
Lemma set_fields_refused m done f x rest : forall self,
  too_long m f x <> Ok false ->
  exists e, fst (set_fields m (done ++ (f, x) :: rest) self) = Raise e.
Proof.
  induction done as [|[g y] done IH]; intros self H; simpl.
  - destruct (too_long m f x) as [[|]|e]; simpl; eauto. congruence.
  - destruct (too_long m g y) as [[|]|e]; simpl; eauto.
Qed.

(** With non-empty qualifiers the call never returns normally: the length
    check of [qualifiers] compares against a [max_length] of [None]. *)
Lemma set_package_url_qualifiers m fs self u :
  PackageURL.qualifiers u <> [] ->
  exists e, fst (set_package_url m fs self (AsPackageURL u)) = Raise e.
Proof.
  intro Hq. unfold set_package_url, PackageURL.to_dict.
  apply (set_fields_refused m
           [(f_type, VStr (PackageURL.type u));
            (f_namespace, PackageURL.opt (PackageURL.namespace u));
            (f_name, VStr (PackageURL.name u));
            (f_version, PackageURL.opt (PackageURL.version u))]
           f_qualifiers (VDict (PackageURL.qualifiers u))).
  unfold too_long. simpl.
  destruct (PackageURL.qualifiers u); [congruence|discriminate].
Qed.

Lemma too_long_true m f x :
  too_long m f x = Ok true ->
  f <> f_qualifiers /\ m f < len x.
Proof.
  unfold too_long. destruct (truthy x); [|discriminate].
  destruct f; simpl; intro H; inversion H as [E];
    apply Nat.ltb_lt in E; split; try discriminate; exact E.
Qed.

(** When no check raises [TypeError], the loop raises [ValidationError] for
    the first item that is too long. *)
Lemma set_fields_first_too_long m items : forall self,
  Forall (fun fx => exists b, too_long m (fst fx) (snd fx) = Ok b) items ->
  Exists (fun fx => too_long m (fst fx) (snd fx) = Ok true) items ->
  exists f x,
    In (f, x) items /\ m f < len x
    /\ fst (set_fields m items self) = Raise (ValidationError (too_long_message f)).
Proof.
  induction items as [|[f x] items IH]; intros self Hall Hex.
  - inversion Hex.
  - inversion Hall as [|? ? [b Hb] Hall']; subst. simpl in Hb |- *.
    rewrite Hb. destruct b.
    + exists f, x. apply too_long_true in Hb as [_ Hlen]. simpl. auto.
    + inversion Hex as [? ? Hfx|? ? Hex']; subst; [simpl in Hfx; congruence|].
      destruct (IH (setattr self f (or_None x)) Hall' Hex')
        as (f' & x' & Hin & Hlen & Hres).
      exists f', x'. auto.
Qed.

Lemma too_long_decides m f x :
  f <> f_qualifiers \/ truthy x = false ->
  exists b, too_long m f x = Ok b.
Proof.
  unfold too_long. intros [Hf|Hx].
  - destruct (truthy x); [|eauto]. destruct f; simpl; eauto. congruence.
  - rewrite Hx. eauto.
Qed.

Lemma too_long_without_qualifiers m u :
  PackageURL.qualifiers u = [] ->
  Forall (fun fx => exists b, too_long m (fst fx) (snd fx) = Ok b)
         (PackageURL.to_dict u).
Proof.
  intro Hq. unfold PackageURL.to_dict. rewrite Hq.
  repeat (constructor;
          [apply too_long_decides; simpl;
           solve [left; discriminate | right; reflexivity]|]).
  constructor.
Qed.

(** Without qualifiers [set_package_url] does what is asked of it: it
    succeeds and assigns every value as given (or [None] for an empty one)
    when each field fits, and raises a [ValidationError] naming a field that
    is too long otherwise. *)
Lemma set_package_url_without_qualifiers m fs self u :
  PackageURL.qualifiers u = [] ->
  (Forall (fun fx => len (snd fx) <= m (fst fx)) (PackageURL.to_dict u) ->
   set_package_url m fs self (AsPackageURL u)
   = (Ok tt, assign_all (PackageURL.to_dict u) self))
  /\
  (Exists (fun fx => fst fx <> f_qualifiers /\ m (fst fx) < len (snd fx))
          (PackageURL.to_dict u) ->
   exists f x,
     In (f, x) (PackageURL.to_dict u) /\ m f < len x
     /\ fst (set_package_url m fs self (AsPackageURL u))
        = Raise (ValidationError (too_long_message f))).
Proof.
  intro Hq. pose proof (too_long_without_qualifiers m u Hq) as Hall. split.
  - intro Hfit. unfold set_package_url. apply set_fields_succeeds.
    rewrite Forall_forall in *. intros [f x] Hin.
    destruct (Hall _ Hin) as [[|] Hb]; [|assumption].
    apply too_long_true in Hb as [_ Hlen]. specialize (Hfit _ Hin). simpl in *. lia.
  - intro Hex. unfold set_package_url. apply set_fields_first_too_long; [assumption|].
    rewrite Exists_exists in *. destruct Hex as ([f x] & Hin & Hf & Hlen).
    exists (f, x). split; [assumption|]. simpl in *.
    unfold too_long. destruct (truthy x) eqn:T.
    + destruct f; simpl; try congruence;
        apply Nat.ltb_lt in Hlen; now rewrite Hlen.
    + apply truthy_len in T. lia.
Qed.

(** C7. A package URL in which every field fits, but which carries
    qualifiers: [set_package_url] raises [TypeError] at the [qualifiers]
    field, after assigning the four fields before it. *)
Theorem set_package_url_qualifiers_TypeError :
  set_package_url packageurl_max_length no_from_string blank_package
                  (AsPackageURL deb_curl)
  = (Raise TypeError,
     {| type := VStr "deb"; namespace := VNone; name := VStr "curl";
        version := VStr "7.50.3-1"; qualifiers := VDict [];
        subpath := VNone |}).
Proof. reflexivity. Qed.

Lemma len_truthy x : 0 < len x -> truthy x = true.
Proof.
  intro H. destruct (truthy x) eqn:T; [reflexivity|].
  apply truthy_len in T. lia.
Qed.

Lemma too_long_false_iff m f x : too_long m f x = Ok false <-> fits m (f, x).
Proof.
  unfold too_long, fits. simpl. destruct (truthy x) eqn:T.
  - destruct f; simpl; split;
      try (intro H; inversion H as [E]; apply Nat.ltb_ge in E; right;
           split; [discriminate|exact E]);
      try (intros [H|[_ H]]; [discriminate|];
           apply Nat.ltb_ge in H; now rewrite H);
      try discriminate.
    intros [H|[H _]]; [discriminate|congruence].
  - split; auto.
Qed.

Lemma too_long_true_iff m f x :
  too_long m f x = Ok true <-> (f <> f_qualifiers /\ m f < len x).
Proof.
  split; [apply too_long_true|].
  intros [Hf Hlen]. unfold too_long. rewrite len_truthy by lia.
  apply Nat.ltb_lt in Hlen.
  destruct f; simpl; try now rewrite Hlen. congruence.
Qed.

Lemma too_long_raises m f x e : too_long m f x = Raise e -> e = TypeError.
Proof.
  unfold too_long. destruct (truthy x); [|discriminate].
  destruct f; simpl; intro H; now inversion H.
Qed.

Lemma too_long_TypeError m f x e :
  too_long m f x = Raise e ->
  f = f_qualifiers /\ truthy x = true /\ e = TypeError.
Proof.
  unfold too_long. destruct (truthy x); [|discriminate].
  destruct f; simpl; intro H; inversion H. auto.
Qed.

Lemma update_or_create_raises self db e :
  fst (update_or_create db_checks self db) = Raise e ->
  snd (update_or_create db_checks self db) = db.
Proof.
  destruct (update_or_create_case self db); try reflexivity; discriminate.
Qed.

(** C8, as the code has it. A call of [update_or_create] that raises leaves
    the table exactly as it was.  A call of [set_package_url] that raises
    does not roll the instance back: when the argument could not be parsed
    nothing was assigned; otherwise the loop stopped at the first field [f]
    that did not pass the check, with that field's exception: [TypeError]
    for non-empty qualifiers, the [ValidationError] naming [f] for a value
    longer than the [max_length] of [f].  The fields before [f] passed and
    carry the new values; [f] and the later fields keep the values they
    had. *)
Theorem failure_effects
        (m : field -> nat) (fs : string -> result PackageURL.t)
        (self : PackageRelatedVulnerability) (db : Table) (e : exn)
        (pkg : Package) (arg : package_url_arg) (e2 : exn) :
  (fst (update_or_create db_checks self db) = Raise e ->
   snd (update_or_create db_checks self db) = db)
  /\
  (fst (set_package_url m fs pkg arg) = Raise e2 ->
   match parsed fs arg with
   | Raise x => x = e2 /\ snd (set_package_url m fs pkg arg) = pkg
   | Ok u =>
       exists done f x rest,
         PackageURL.to_dict u = done ++ (f, x) :: rest
         /\ Forall (fits m) done
         /\ ((f = f_qualifiers /\ truthy x = true /\ e2 = TypeError)
             \/ (f <> f_qualifiers /\ m f < len x
                 /\ e2 = ValidationError (too_long_message f)))
         /\ snd (set_package_url m fs pkg arg) = assign_all done pkg
         /\ (forall g y, In (g, y) done ->
                         getattr (snd (set_package_url m fs pkg arg)) g = or_None y)
         /\ (forall g, g = f \/ In g (map fst rest) ->
                       getattr (snd (set_package_url m fs pkg arg)) g
                       = getattr pkg g)
   end).
Proof.
  split; [apply update_or_create_raises|].
  assert (forall u,
             fst (set_fields m (PackageURL.to_dict u) pkg) = Raise e2 ->
             exists done f x rest,
               PackageURL.to_dict u = done ++ (f, x) :: rest
               /\ Forall (fits m) done
               /\ ((f = f_qualifiers /\ truthy x = true /\ e2 = TypeError)
                   \/ (f <> f_qualifiers /\ m f < len x
                       /\ e2 = ValidationError (too_long_message f)))
               /\ snd (set_fields m (PackageURL.to_dict u) pkg) = assign_all done pkg
               /\ (forall g y, In (g, y) done ->
                               getattr (snd (set_fields m (PackageURL.to_dict u) pkg)) g
                               = or_None y)
               /\ (forall g, g = f \/ In g (map fst rest) ->
                             getattr (snd (set_fields m (PackageURL.to_dict u) pkg)) g
                             = getattr pkg g)) as Hloop.
  { intros u H.
    destruct (set_fields_raises m _ _ _ H)
      as (done & f & x & rest & Hitems & Hs & Hpassed & Hstop).
    exists done, f, x, rest. rewrite Hs.
    pose proof (to_dict_NoDup u) as Hnd. rewrite Hitems, map_app in Hnd.
    apply NoDup_app_parts in Hnd as [Hdone Hdis].
    split; [assumption|]. split.
    { eapply Forall_impl; [|exact Hpassed]. intros [g y]. apply too_long_false_iff. }
    split.
    { destruct Hstop as [Hr|[Ht ->]].
      - left. now apply too_long_TypeError in Hr.
      - right. apply too_long_true_iff in Ht as [Hf Hlen]. auto. }
    repeat split.
    - intros g y Hin. now apply getattr_assign_all_in.
    - intros g Hg. apply getattr_assign_all_other. apply Hdis. simpl.
      destruct Hg; auto. }
  destruct arg as [s|u]; unfold set_package_url, parsed.
  - destruct (fs s) as [u|x] eqn:F.
    + apply Hloop.
    + simpl. intro H. inversion H. auto.
  - apply Hloop.
Qed.

(** C8, as stated, fails: a name of 101 characters makes [set_package_url]
    raise after [type] has been overwritten. *)
Lemma set_package_url_partial_assignment :
  fst (set_package_url packageurl_max_length no_from_string blank_package
                       (AsPackageURL deb_long_name))
  = Raise (ValidationError (too_long_message f_name))
  /\ snd (set_package_url packageurl_max_length no_from_string blank_package
                          (AsPackageURL deb_long_name))
     = setattr blank_package f_type (VStr "deb")
  /\ snd (set_package_url packageurl_max_length no_from_string blank_package
                          (AsPackageURL deb_long_name))
     <> blank_package.
Proof.
  repeat split. vm_compute. discriminate.
Qed.

(** ** Two concurrent callers: claim C5 *)

(** Run without interruption, the two statements of a call are
    [update_or_create]. *)
Lemma step_step_update_or_create self db :
  Race.step db_checks (fst (Race.step db_checks (Race.Start self) db))
            (snd (Race.step db_checks (Race.Start self) db))
  = (Race.Returned (fst (update_or_create db_checks self db)),
     snd (update_or_create db_checks self db)).
Proof.
  unfold update_or_create. simpl.
  destruct (objects_get (vulnerability self) (package self) db) as [r|x].
  - destruct (confidence (snd r) <? confidence self)%Z; [|reflexivity].
    now destruct (save db_checks (fst r, overwrite (snd r) self) db) as [[u|x] db'].
  - destruct x; try reflexivity.
    now destruct (objects_create db_checks self db) as [[r|x] db'].
Qed.

Lemma first_runs_alone a c2 db :
  Race.run db_checks [true; true]
           {| Race.first := Race.Start a; Race.second := c2;
              Race.table := db |}
  = {| Race.first := Race.Returned (fst (update_or_create db_checks a db));
       Race.second := c2;
       Race.table := snd (update_or_create db_checks a db) |}.
Proof.
  pose proof (step_step_update_or_create a db) as R.
  unfold Race.run, Race.sched_step. cbn [fold_left Race.first Race.second Race.table].
  destruct (Race.step db_checks (Race.Start a) db) as [c d].
  cbn [fold_left Race.first Race.second Race.table fst snd] in *.
  now rewrite R.
Qed.

Lemma second_runs_alone b c1 db :
  Race.run db_checks [false; false]
           {| Race.first := c1; Race.second := Race.Start b;
              Race.table := db |}
  = {| Race.first := c1;
       Race.second := Race.Returned (fst (update_or_create db_checks b db));
       Race.table := snd (update_or_create db_checks b db) |}.
Proof.
  pose proof (step_step_update_or_create b db) as R.
  unfold Race.run, Race.sched_step. cbn [fold_left Race.first Race.second Race.table].
  destruct (Race.step db_checks (Race.Start b) db) as [c d].
  cbn [fold_left Race.first Race.second Race.table fst snd] in *.
  now rewrite R.
Qed.

Lemma run_app sch sch' s :
  Race.run db_checks (sch ++ sch') s
  = Race.run db_checks sch' (Race.run db_checks sch s).
Proof. unfold Race.run. apply fold_left_app. Qed.

(** One caller after the other is [apply_all]. *)
Lemma serial_is_apply_all a b db :
  Race.table (Race.run db_checks [true; true; false; false] (Race.racing a b db))
  = apply_all db_checks [a; b] db
  /\ Race.table (Race.run db_checks [false; false; true; true]
                          (Race.racing a b db))
     = apply_all db_checks [b; a] db.
Proof.
  unfold Race.racing. split.
  - change [true; true; false; false] with ([true; true] ++ [false; false]).
    now rewrite run_app, first_runs_alone, second_runs_alone.
  - change [false; false; true; true] with ([false; false] ++ [true; true]).
    now rewrite run_app, second_runs_alone, first_runs_alone.
Qed.

Lemma holds_row_insert c db r :
  Race.holds_row c db -> Race.holds_row c (db ++ [r]).
Proof.
  destruct c as [| self [existing|x] |]; simpl; auto.
  intros (e & Hin & Hp & Hv). exists e. rewrite in_app_iff. auto.
Qed.

Lemma holds_row_save c db pk e e' :
  pk_unique db = true -> In (pk, e) db ->
  package e' = package e -> vulnerability e' = vulnerability e ->
  Race.holds_row c db -> Race.holds_row c (update_row (pk, e') db).
Proof.
  intros Hu Hin Hp Hv.
  destruct c as [| self [existing|x] |]; simpl; auto.
  intros (e1 & Hin1 & Hp1 & Hv1).
  destruct (Nat.eq_dec (fst existing) pk) as [E|E].
  - rewrite E in *.
    rewrite (pk_unique_functional db pk e1 e Hu Hin1 Hin) in *.
    exists e'. repeat split; try congruence.
    unfold update_row. apply in_map_iff. exists (pk, e). simpl.
    now rewrite Nat.eqb_refl.
  - exists e1. repeat split; try assumption.
    apply (save_other (pk, e')); assumption.
Qed.

Lemma step_invariant c other db :
  pk_unique db = true ->
  (forall v p, pair_count v p db <= 1) ->
  Race.holds_row c db -> Race.holds_row other db ->
  pk_unique (snd (Race.step db_checks c db)) = true
  /\ (forall v p, pair_count v p (snd (Race.step db_checks c db)) <= 1)
  /\ Race.holds_row (fst (Race.step db_checks c db))
                    (snd (Race.step db_checks c db))
  /\ Race.holds_row other (snd (Race.step db_checks c db)).
Proof.
  intros Hu Hc Hrow Hother.
  destruct c as [self | self [existing|x] | o]; simpl.
  - repeat split; try assumption.
    destruct (objects_get (vulnerability self) (package self) db) as [r|x] eqn:G;
      simpl; [|exact I].
    apply objects_get_In in G as (Hin & _ & _).
    exists (snd r). rewrite <- surjective_pairing. auto.
  - simpl in Hrow. destruct Hrow as (e & Hin & Hp & Hv).
    destruct (confidence (snd existing) <? confidence self)%Z; simpl;
      [|repeat split; assumption].
    unfold save. simpl snd.
    destruct (db_checks (overwrite (snd existing) self)); simpl;
      [repeat split; assumption|].
    repeat split.
    + unfold pk_unique. now rewrite map_fst_save.
    + intros v p. unfold pair_count.
      rewrite (filter_save v p (fst existing) e); auto.
      rewrite length_map. apply Hc.
    + apply holds_row_save with (e := e); auto.
  - destruct x; simpl; try (repeat split; assumption).
    unfold objects_create.
    destruct (db_checks self); simpl; [repeat split; assumption|].
    destruct (existsb (same_pair (vulnerability self) (package self)) db) eqn:E;
      simpl; [repeat split; assumption|].
    repeat split.
    + now apply pk_unique_insert.
    + intros v p. unfold pair_count. rewrite filter_app, length_app. simpl.
      destruct (same_pair v p (next_pk db, self)) eqn:S; simpl.
      * apply same_pair_spec in S as [Sv Sp]. simpl in Sv, Sp. subst v p.
        apply existsb_filter_nil in E. rewrite E. simpl. lia.
      * specialize (Hc v p). unfold pair_count in Hc. lia.
    + now apply holds_row_insert.
  - repeat split; assumption.
Qed.

(** Whatever the schedule, the unique constraint keeps the two callers from
    storing two edges for one pair. *)
Lemma race_never_duplicates schedule : forall s,
  race_invariant s -> race_invariant (Race.run db_checks schedule s).
Proof.
  induction schedule as [|who sch IH]; intros s Hs; [assumption|].
  simpl. apply IH. destruct Hs as (Hu & Hc & H1 & H2).
  unfold Race.sched_step. destruct who.
  - destruct (step_invariant (Race.first s) (Race.second s) (Race.table s))
      as (Hu' & Hc' & H1' & H2'); auto.
    destruct (Race.step db_checks (Race.first s) (Race.table s)).
    repeat split; assumption.
  - destruct (step_invariant (Race.second s) (Race.first s) (Race.table s))
      as (Hu' & Hc' & H2' & H1'); auto.
    destruct (Race.step db_checks (Race.second s) (Race.table s)).
    repeat split; assumption.
Qed.

(** C5. Two callers with confidence 60 and 90 on a pair whose edge has
    confidence 10: when both read before either writes and the caller
    with 60 writes last, both calls return normally and the edge is left
    with confidence 60.  On an empty table, when both find no edge, the
    second [create] is refused with [IntegrityError]; if that is the caller
    with 90, the edge is left with confidence 60.  Run one after the other,
    in either order, the two calls leave 90.  All of it on either
    backend. *)
Theorem interleaved_claims_lose_update :
  forall b : backend,
  Race.run (column_checks b) [true; false; false; true]
           (Race.racing (sample_claim 60 false "istio")
                        (sample_claim 90 true "nginx")
                        [(1, sample_claim 10 false "debian")])
  = {| Race.first := Race.Returned (Ok (ConfidenceImproved 7 3 60));
       Race.second := Race.Returned (Ok (ConfidenceImproved 7 3 90));
       Race.table := [(1, sample_claim 60 false "istio")] |}
  /\
  Race.run (column_checks b) [true; false; true; false]
           (Race.racing (sample_claim 60 false "istio")
                        (sample_claim 90 true "nginx") [])
  = {| Race.first := Race.Returned (Ok (NewRelationship 7 3 false 60));
       Race.second := Race.Returned (Raise IntegrityError);
       Race.table := [(1, sample_claim 60 false "istio")] |}
  /\
  Race.table (Race.run (column_checks b) [true; true; false; false]
                       (Race.racing (sample_claim 60 false "istio")
                                    (sample_claim 90 true "nginx")
                                    [(1, sample_claim 10 false "debian")]))
  = [(1, sample_claim 90 true "nginx")]
  /\
  Race.table (Race.run (column_checks b) [false; false; true; true]
                       (Race.racing (sample_claim 60 false "istio")
                                    (sample_claim 90 true "nginx")
                                    [(1, sample_claim 10 false "debian")]))
  = [(1, sample_claim 90 true "nginx")].
Proof. intro b. destruct b; repeat split. Qed.

(** ** The resolver: claims C4 and C6 *)

Lemma compare_refl (a : Resolver.Version) : Resolver.compare a a = Eq.
Proof.
  induction a as [|x a IH]; simpl; [reflexivity|].
  now rewrite N.compare_refl.
Qed.

Lemma leb_refl (a : Resolver.Version) : Resolver.leb a a = true.
Proof. unfold Resolver.leb. now rewrite compare_refl. Qed.

(** In an ordered catalog the first version past a bound is the smallest
    one past it. *)
Lemma find_past_is_smallest (e : Resolver.Version) known :
  Resolver.ordered known = true ->
  match find (Resolver.ltb e) known with
  | Some p =>
      In p known /\ Resolver.ltb e p = true
      /\ forall v, In v known -> Resolver.ltb e v = true -> Resolver.leb p v = true
  | None => forall v, In v known -> Resolver.ltb e v = false
  end.
Proof.
  induction known as [|w rest IH]; simpl; intro Ho; [tauto|].
  apply andb_true_iff in Ho as [Hw Hrest]. specialize (IH Hrest).
  destruct (Resolver.ltb e w) eqn:E.
  - split; [now left|]. split; [assumption|].
    intros v [<-|Hin] _; [apply leb_refl|].
    rewrite forallb_forall in Hw. now apply Hw.
  - destruct (find (Resolver.ltb e) rest) as [p|].
    + destruct IH as (Hin & Hlt & Hmin). split; [now right|].
      split; [assumption|].
      intros v [<-|Hv] Hv'; [congruence|now apply Hmin].
    + intros v [<-|Hv]; [assumption|now apply IH].
Qed.

(** C4. For every catalog ordered by release and bounds [s], [e]: the
    vulnerable versions are exactly the catalog versions [v] with
    [s <= v <= e]; the patched version is a catalog version strictly past
    [e] and at most every other such version, or is absent when the catalog
    has none.  For the catalog of the scenario and the range 1.1 to 1.1.15:
    vulnerable 1.1.0 and 1.1.1, patched 1.1.17. *)
Theorem resolve_correct (known : list Resolver.Version) (s e : Resolver.Version) :
  Resolver.ordered known = true ->
  (forall v, In v (fst (Resolver.resolve (Some s) (Some e) known))
             <-> In v known /\ Resolver.leb s v = true /\ Resolver.leb v e = true)
  /\ match snd (Resolver.resolve (Some s) (Some e) known) with
     | Some p =>
         In p known /\ Resolver.ltb e p = true
         /\ forall v, In v known -> Resolver.ltb e v = true ->
                      Resolver.leb p v = true
     | None => forall v, In v known -> Resolver.ltb e v = false
     end
  /\ Resolver.resolve (Some [1;1]%N) (Some [1;1;15]%N) Resolver.scenario_catalog
     = ([[1;1;0]; [1;1;1]]%N, Some [1;1;17]%N).
Proof.
  intro Ho. split; [|split].
  - intro v. unfold Resolver.resolve. simpl fst.
    rewrite filter_In, andb_true_iff. reflexivity.
  - now apply find_past_is_smallest.
  - reflexivity.
Qed.

Lemma resolve_correct_witness :
  Resolver.ordered Resolver.test_catalog = true
  /\ match snd (Resolver.resolve (Some [1;2]%N) (Some [1;2;6]%N)
                                 Resolver.test_catalog) with
     | Some p =>
         In p Resolver.test_catalog /\ Resolver.ltb [1;2;6]%N p = true
         /\ forall v, In v Resolver.test_catalog ->
                      Resolver.ltb [1;2;6]%N v = true ->
                      Resolver.leb p v = true
     | None => forall v, In v Resolver.test_catalog ->
                         Resolver.ltb [1;2;6]%N v = false
     end.
Proof.
  split; [reflexivity|].
  apply (resolve_correct Resolver.test_catalog [1;2]%N [1;2;6]%N).
  reflexivity.
Defined.

(** The model reproduces the expected data of [test_process_file]. *)
Lemma process_file_expected :
  Resolver.affected_packages
    [Resolver.range_1_1; Resolver.range_1_2; Resolver.range_1_3]
    [Resolver.golang_view; Resolver.github_view]
  = Resolver.expected_affected_packages.
Proof. vm_compute. reflexivity. Qed.


(* ------------------------------------------------------------------ *)
(** * Further properties of update_or_create *)

Lemma map_fixes_members (A : Type) (f : A -> A) l :
  map f l = l -> forall a, In a l -> f a = a.
Proof.
  induction l as [|x l IH]; simpl; intros H a Ha; [contradiction|].
  injection H as Hx Hl. destruct Ha as [<-|Ha]; [assumption|].
  now apply IH.
Qed.

Lemma update_row_changes self db pk e :
  objects_get (vulnerability self) (package self) db = Ok (pk, e) ->
  (confidence e < confidence self)%Z ->
  update_row (pk, overwrite e self) db <> db.
Proof.
  intros G Hc H. apply objects_get_In in G as (Hin & _ & _).
  pose proof (map_fixes_members _ _ _ H _ Hin) as F. simpl in F.
  rewrite Nat.eqb_refl in F. inversion F as [E].
  rewrite <- E in Hc. simpl in Hc. lia.
Qed.

Lemma append_changes (A : Type) (l : list A) a : l ++ [a] <> l.
Proof.
  intro H. apply (f_equal (@List.length A)) in H.
  rewrite length_app in H. simpl in H. lia.
Qed.

(** X1. A call has left the table as it was exactly when it returned
    without logging or raised; a call that logs has changed the table.  So
    [logger.info] is reached exactly when the table changes. *)
Theorem update_or_create_logs_iff_changes
        (self : PackageRelatedVulnerability) (db : Table) :
  snd (update_or_create db_checks self db) = db
  <-> (fst (update_or_create db_checks self db) = Ok NoLog
       \/ exists x, fst (update_or_create db_checks self db) = Raise x).
Proof.
  destruct (update_or_create_case self db) as [G A|pk e G Hc A|pk e G Hc|G|x G R|pk e x G Hc R].
  - split.
    + intro H. now apply append_changes in H.
    + intros [H|[x H]]; discriminate.
  - split.
    + intro H. now apply (update_row_changes _ _ _ _ G Hc) in H.
    + intros [H|[x H]]; discriminate.
  - tauto.
  - split; eauto.
  - split; eauto.
  - split; eauto.
Qed.

Lemma pair_count_multiple v p db :
  2 <= pair_count v p db <-> objects_get v p db = Raise MultipleObjectsReturned.
Proof.
  unfold pair_count, objects_get.
  destruct (filter (same_pair v p) db) as [|a [|b l]]; simpl; split; intro H;
    try discriminate; try lia; reflexivity.
Qed.

Lemma pair_count_absent v p db :
  pair_count v p db = 0 <-> objects_get v p db = Raise DoesNotExist.
Proof.
  unfold pair_count, objects_get.
  destruct (filter (same_pair v p) db) as [|a [|b l]]; simpl; split; intro H;
    try discriminate; reflexivity.
Qed.

(** X2. A call raises [x] in exactly two situations: the table holds more
    than one row for the pair and [x] is [MultipleObjectsReturned]; or a
    write is attempted (no row for the pair, or one row of strictly smaller
    confidence) and the database refuses the claim's values with [x].  A
    sequential call is never refused by the unique constraint: [create] is
    reached only after [get] found no row. *)
Theorem update_or_create_raises_iff
        (self : PackageRelatedVulnerability) (db : Table) (x : exn) :
  fst (update_or_create db_checks self db) = Raise x
  <-> ((x = MultipleObjectsReturned
        /\ 2 <= pair_count (vulnerability self) (package self) db)
       \/ (db_checks self = Some x
           /\ (pair_count (vulnerability self) (package self) db = 0
               \/ exists pk e,
                 objects_get (vulnerability self) (package self) db = Ok (pk, e)
                 /\ (confidence e < confidence self)%Z))).
Proof.
  split.
  - destruct (update_or_create_case self db) as [G A|pk e G Hc A|pk e G Hc|G|y G R|pk e y G Hc R];
      intro H; try discriminate; inversion H; subst.
    + left. split; [reflexivity|]. now apply pair_count_multiple.
    + right. split; [assumption|]. left. now apply pair_count_absent.
    + right. split; [assumption|]. right. eauto.
  - intros [[-> H]|[R [H|(pk & e & G & Hc)]]].
    + apply pair_count_multiple in H.
      now rewrite (update_or_create_multiple _ _ H).
    + apply pair_count_absent in H.
      now rewrite (update_or_create_refused_create _ _ _ H R).
    + now rewrite (update_or_create_refused_save _ _ _ _ _ G Hc R).
Qed.

(** X3. Applying a claim a second time changes nothing and logs nothing. *)
Theorem update_or_create_idempotent
        (self : PackageRelatedVulnerability) (db : Table) :
  pk_unique db = true ->
  snd (update_or_create db_checks self (snd (update_or_create db_checks self db)))
  = snd (update_or_create db_checks self db)
  /\ (forall l, fst (update_or_create db_checks self db) = Ok l ->
                fst (update_or_create db_checks self
                                      (snd (update_or_create db_checks self db)))
                = Ok NoLog).
Proof.
  intro Hu.
  pose proof (update_or_create_get_same self db Hu) as S. revert S.
  unfold accepted.
  destruct (update_or_create_case self db) as [G A|pk e G Hc A|pk e G Hc|G|x G R|pk e x G Hc R];
    rewrite G; intro S.
  - rewrite A in S.
    rewrite (update_or_create_keeps self _ (next_pk db) self S);
      [split; reflexivity|]. lia.
  - rewrite A in S. pose proof Hc as Hb. apply Z.ltb_lt in Hb.
    rewrite Hb in S. simpl in S.
    rewrite (update_or_create_keeps self _ pk (overwrite e self) S);
      [split; reflexivity|]. simpl. lia.
  - rewrite (update_or_create_keeps _ _ _ _ G Hc). split; reflexivity.
  - rewrite (update_or_create_multiple _ _ G). split; [reflexivity|].
    intros l E. discriminate.
  - rewrite (update_or_create_refused_create _ _ _ G R). split; [reflexivity|].
    intros l E. discriminate.
  - rewrite (update_or_create_refused_save _ _ _ _ _ G Hc R).
    split; [reflexivity|]. intros l E. discriminate.
Qed.

Lemma update_or_create_filter_other self db v p :
  pk_unique db = true ->
  (vulnerability self, package self) <> (v, p) ->
  filter (same_pair v p) (snd (update_or_create db_checks self db))
  = filter (same_pair v p) db.
Proof.
  intros Hu Hne.
  destruct (update_or_create_case self db) as [G A|pk e G _ A|pk e G _|G|x G R|pk e x G _ R];
    try reflexivity.
  - rewrite filter_app. simpl.
    destruct (same_pair v p (next_pk db, self)) eqn:E.
    + apply same_pair_spec in E as [Ev Ep]. simpl in Ev, Ep. congruence.
    + now rewrite app_nil_r.
  - rewrite (filter_save_fetched _ _ _ _ _ _ Hu G).
    rewrite <- (map_id (filter (same_pair v p) db)) at 2.
    apply map_ext_in. intros [k a] Hin. apply filter_In in Hin as [Hin Hp].
    simpl fst. destruct (k =? pk) eqn:E; [|reflexivity].
    apply Nat.eqb_eq in E. subst k. exfalso.
    apply objects_get_In in G as (Hin' & Gv & Gp). simpl in Gv, Gp.
    rewrite (pk_unique_functional db pk a e Hu Hin Hin') in Hp.
    apply same_pair_spec in Hp as [Hv Hp]. simpl in Hv, Hp. congruence.
Qed.

(** X4. Claims leave the rows of every pair they do not name exactly as they
    were: same rows, same primary keys, same field values. *)
Theorem apply_all_other_pairs
        (claims : list PackageRelatedVulnerability) (db : Table) (v p : nat) :
  pk_unique db = true ->
  List.length (claims_on v p claims) = 0 ->
  filter (same_pair v p) (apply_all db_checks claims db)
  = filter (same_pair v p) db.
Proof.
  revert db. induction claims as [|c cs IH]; intros db Hu Hn; [reflexivity|].
  simpl in Hn |- *.
  destruct ((vulnerability c =? v) && (package c =? p)) eqn:E;
    [simpl in Hn; lia|].
  rewrite IH; [|now apply update_or_create_pk_unique|assumption].
  apply update_or_create_filter_other; [assumption|].
  intro F. inversion F; subst. now rewrite !Nat.eqb_refl in E.
Qed.

Lemma update_or_create_pks self db :
  exists new,
    map fst (snd (update_or_create db_checks self db)) = map fst db ++ new
    /\ List.length new <= 1.
Proof.
  destruct (update_or_create_case self db) as [G A|pk e G _ A|pk e G _|G|x G R|pk e x G _ R].
  - exists [next_pk db]. rewrite map_app. simpl. auto.
  - exists []. rewrite map_fst_save, app_nil_r. simpl. auto.
  - exists []. rewrite app_nil_r. simpl. auto.
  - exists []. rewrite app_nil_r. simpl. auto.
  - exists []. rewrite app_nil_r. simpl. auto.
  - exists []. rewrite app_nil_r. simpl. auto.
Qed.

(** X5. Rows are never deleted or moved and primary keys never change: the keys
    after a sequence of claims are the keys before, in place, followed by at
    most one new key per claim, all distinct when they were. *)
Theorem apply_all_appends
        (claims : list PackageRelatedVulnerability) (db : Table) :
  exists new,
    map fst (apply_all db_checks claims db) = map fst db ++ new
    /\ List.length new <= List.length claims
    /\ (pk_unique db = true -> NoDup (map fst db ++ new)).
Proof.
  assert (exists new,
             map fst (apply_all db_checks claims db) = map fst db ++ new
             /\ List.length new <= List.length claims) as (new & Hk & Hl).
  { revert db. induction claims as [|c cs IH]; intro db.
    - exists []. rewrite app_nil_r. simpl. auto.
    - simpl. destruct (IH (snd (update_or_create db_checks c db))) as (new & Hk & Hl).
      destruct (update_or_create_pks c db) as (n1 & Hk1 & Hl1).
      exists (n1 ++ new). rewrite Hk, Hk1, <- app_assoc, length_app.
      split; [reflexivity|lia]. }
  exists new. repeat split; try assumption.
  intro Hu. rewrite <- Hk. apply distinct_NoDup.
  now apply apply_all_pk_unique.
Qed.

Lemma edge_at_Some v p db e :
  edge_at v p db = Some e <-> exists pk, objects_get v p db = Ok (pk, e).
Proof.
  unfold edge_at. destruct (objects_get v p db) as [[pk e']|x]; simpl; split.
  - intro H. inversion H. eauto.
  - intros (pk' & H). now inversion H.
  - discriminate.
  - intros (pk' & H). discriminate.
Qed.

Lemma max_confidence_ge c claims :
  In c claims -> (confidence c <= max_confidence claims)%Z.
Proof.
  destruct claims as [|x l]; intro H; [contradiction|].
  simpl max_confidence. destruct H as [->|H].
  - apply max_from_ge.
  - now apply max_from_In.
Qed.

Lemma In_accepted_claims_on c claims :
  In c claims -> db_checks c = None ->
  In c (filter (accepted db_checks)
               (claims_on (vulnerability c) (package c) claims)).
Proof.
  intros H A. apply filter_In. split.
  - unfold claims_on. apply filter_In. split; [assumption|].
    now rewrite !Nat.eqb_refl.
  - unfold accepted. now rewrite A.
Qed.

Lemma apply_all_keeps_pk claims : forall db v p pk e,
  pk_unique db = true ->
  objects_get v p db = Ok (pk, e) ->
  exists e', objects_get v p (apply_all db_checks claims db) = Ok (pk, e').
Proof.
  induction claims as [|c cs IH]; intros db v p pk e Hu G; [simpl; eauto|].
  simpl.
  assert (exists e1, objects_get v p (snd (update_or_create db_checks c db))
                     = Ok (pk, e1))
    as (e1 & G1).
  { destruct ((vulnerability c =? v) && (package c =? p)) eqn:E.
    - apply andb_true_iff in E as [Ev Ep]. apply Nat.eqb_eq in Ev, Ep. subst v p.
      rewrite (update_or_create_get_same c db Hu), G.
      destruct (accepted db_checks c && (confidence e <? confidence c)%Z); eauto.
    - rewrite update_or_create_get_other; eauto.
      intro F. inversion F; subst. now rewrite !Nat.eqb_refl in E. }
  apply (IH _ _ _ _ e1); [now apply update_or_create_pk_unique|assumption].
Qed.

Lemma pair_count_of_get v p db r :
  objects_get v p db = Ok r -> pair_count v p db <= 1.
Proof.
  intro G. apply objects_get_Ok in G. unfold pair_count. rewrite G. simpl. lia.
Qed.

(** X6. From a pair that already has an edge: after any sequence of claims
    the same row (same primary key, package and vulnerability) holds the
    largest of its former confidence and the confidences of the claims on
    the pair that the database accepts; so a stored confidence never
    decreases.  The edge is untouched unless such a claim is strictly above
    it, and then [fix] and [created_by] are those of the first accepted
    claim of largest confidence. *)
Theorem apply_all_from_present
        (claims : list PackageRelatedVulnerability) (db : Table)
        (v p pk : nat) (e0 : PackageRelatedVulnerability) :
  pk_unique db = true ->
  objects_get v p db = Ok (pk, e0) ->
  exists e,
    objects_get v p (apply_all db_checks claims db) = Ok (pk, e)
    /\ package e = package e0 /\ vulnerability e = vulnerability e0
    /\ confidence e
       = max_from (confidence e0)
                  (filter (accepted db_checks) (claims_on v p claims))
    /\ (confidence e0 <= confidence e)%Z
    /\ ((forall c, In c (filter (accepted db_checks) (claims_on v p claims)) ->
                   (confidence c <= confidence e0)%Z) -> e = e0)
    /\ ((confidence e0 < confidence e)%Z ->
        exists c,
          first_of_max (filter (accepted db_checks) (claims_on v p claims))
          = Some c
          /\ fix_ e = fix_ c /\ created_by e = created_by c).
Proof.
  intros Hu G.
  destruct (apply_all_keeps_pk claims db v p pk e0 Hu G) as (e & G').
  exists e. split; [assumption|].
  pose proof (apply_all_edge_at claims db v p Hu (pair_count_of_get _ _ _ _ G)) as E.
  unfold edge_at in E. rewrite G, G' in E. simpl in E.
  set (ks := filter (accepted db_checks) (claims_on v p claims)) in *.
  destruct (fold_merge_present ks e0)
    as (e1 & Hf & Hconf & Hp & Hv & Hkeep & Hnew).
  rewrite Hf in E. inversion E; subst e1.
  pose proof (max_from_ge (confidence e0) ks) as Hge.
  repeat split; try assumption; try lia.
  - intro Hall. apply Hkeep.
    assert (forall l, (forall c, In c l -> (confidence c <= confidence e0)%Z) ->
                      (max_from (confidence e0) l <= confidence e0)%Z) as Hbound.
    { induction l as [|c l IH]; intro H; [unfold max_from; simpl; lia|].
      rewrite max_from_cons.
      pose proof (H c (or_introl eq_refl)).
      pose proof (IH (fun c' Hc' => H c' (or_intror Hc'))). lia. }
    now apply Hbound.
  - intro Hlt. rewrite Hconf in Hlt.
    destruct (Hnew Hlt) as (c & Hfind & Hfix & Hby).
    exists c. unfold first_of_max.
    rewrite <- (max_from_above _ _ Hlt). auto.
Qed.

(** X7. After a sequence of claims a pair has an edge exactly when it had
    one before or some claim of the sequence that the database accepts
    names it: no edge disappears, and none appears for a pair nobody
    claimed or whose claims were all refused. *)
Theorem apply_all_edges
        (claims : list PackageRelatedVulnerability) (db : Table) (v p : nat) :
  pk_unique db = true ->
  unique_together db = true ->
  (exists r, objects_get v p (apply_all db_checks claims db) = Ok r)
  <-> ((exists r, objects_get v p db = Ok r)
       \/ 0 < List.length (filter (accepted db_checks) (claims_on v p claims))).
Proof.
  intros Hu Ht.
  pose proof (proj1 (unique_together_spec db) Ht v p) as Hc.
  pose proof (apply_all_edge_at claims db v p Hu Hc) as E.
  assert (forall d, (exists r, objects_get v p d = Ok r)
                    <-> exists e, edge_at v p d = Some e) as Hview.
  { intro d. split.
    - intros ([pk e] & H). exists e. apply edge_at_Some. eauto.
    - intros (e & H). apply edge_at_Some in H as (pk & H). eauto. }
  rewrite !Hview, E.
  destruct (edge_at v p db) as [e0|].
  - destruct (fold_merge_present
                (filter (accepted db_checks) (claims_on v p claims)) e0)
      as (e & Hf & _).
    rewrite Hf. split; eauto.
  - destruct (filter (accepted db_checks) (claims_on v p claims)) as [|c ks] eqn:K.
    + simpl. split.
      * intros (e & H). discriminate.
      * intros [(e & H)|H]; [discriminate|lia].
    + destruct (fold_merge_absent (c :: ks)) as (e & c' & Hf & _);
        [simpl; lia|].
      rewrite Hf. split; [intros _; right; simpl; lia|eauto].
Qed.

(** X8. Every claim of an applied sequence whose values the database accepts
    is honoured: its pair has an edge afterwards, with a confidence at least
    the claim's. *)
Theorem applied_claims_are_stored
        (claims : list PackageRelatedVulnerability) (db : Table)
        (c : PackageRelatedVulnerability) :
  pk_unique db = true ->
  unique_together db = true ->
  In c claims ->
  db_checks c = None ->
  exists pk e,
    objects_get (vulnerability c) (package c) (apply_all db_checks claims db)
    = Ok (pk, e)
    /\ (confidence c <= confidence e)%Z.
Proof.
  intros Hu Ht Hin A.
  pose proof (proj1 (unique_together_spec db) Ht (vulnerability c) (package c)) as Hc.
  pose proof (apply_all_edge_at claims db _ _ Hu Hc) as E.
  pose proof (In_accepted_claims_on c claims Hin A) as Hks.
  set (ks := filter (accepted db_checks)
                    (claims_on (vulnerability c) (package c) claims)) in *.
  destruct (edge_at (vulnerability c) (package c) db) as [e0|].
  - destruct (fold_merge_present ks e0) as (e & Hf & Hconf & _).
    rewrite Hf in E. apply edge_at_Some in E as (pk & G).
    exists pk, e. split; [assumption|].
    rewrite Hconf. now apply max_from_In.
  - destruct (fold_merge_absent ks) as (e & c' & Hf & Hconf & _).
    { destruct ks; [contradiction|simpl; lia]. }
    rewrite Hf in E. apply edge_at_Some in E as (pk & G).
    exists pk, e. split; [assumption|].
    rewrite Hconf. now apply max_confidence_ge.
Qed.

Lemma filter_Permutation (A : Type) (f : A -> bool) l l' :
  Permutation l l' -> Permutation (filter f l) (filter f l').
Proof.
  induction 1 as [|x l l' _ IH|x y l|l l' l'' _ IH1 _ IH2]; simpl.
  - constructor.
  - destruct (f x); [now constructor|assumption].
  - destruct (f x), (f y); try apply Permutation_refl; apply perm_swap.
  - now transitivity (filter f l').
Qed.

Lemma max_from_Permutation start ks ks' :
  Permutation ks ks' -> max_from start ks = max_from start ks'.
Proof.
  induction 1 as [|x l l' _ IH|x y l|l l' l'' _ IH1 _ IH2];
    rewrite ?max_from_cons; try reflexivity; try lia.
Qed.

Lemma max_from_max_confidence start ks :
  0 < List.length ks ->
  max_from start ks = Z.max start (max_confidence ks).
Proof.
  destruct ks as [|c cs]; simpl List.length; intro H; [lia|].
  rewrite max_from_cons. simpl max_confidence. apply max_from_swap.
Qed.

Lemma max_confidence_Permutation ks ks' :
  Permutation ks ks' -> max_confidence ks = max_confidence ks'.
Proof.
  intro H. pose proof (Permutation_length H) as Hlen.
  destruct ks as [|c cs].
  - destruct ks'; [reflexivity|discriminate].
  - assert (0 < List.length (c :: cs)) as L by (simpl; lia).
    assert (0 < List.length ks') as L' by (rewrite <- Hlen; exact L).
    pose proof (max_from_Permutation
                  (Z.min (max_confidence (c :: cs)) (max_confidence ks')) _ _ H) as E.
    rewrite (max_from_max_confidence _ _ L), (max_from_max_confidence _ _ L') in E.
    lia.
Qed.

Lemma fold_merge_confidence ks o :
  option_map confidence (fold_left merge ks o)
  = match o with
    | Some e0 => Some (max_from (confidence e0) ks)
    | None => match ks with
              | [] => None
              | _ :: _ => Some (max_confidence ks)
              end
    end.
Proof.
  destruct o as [e0|].
  - destruct (fold_merge_present ks e0) as (e & Hf & Hconf & _).
    rewrite Hf. simpl. now rewrite Hconf.
  - destruct ks as [|c ks]; [reflexivity|].
    destruct (fold_merge_absent (c :: ks)) as (e & c' & Hf & Hconf & _);
      [simpl; lia|].
    rewrite Hf. simpl. now rewrite Hconf.
Qed.

(** X9. The confidence stored for a pair does not depend on the order in which
    the claims are applied ([fix] and [created_by] may: on a tie the earlier
    claim wins). *)
Theorem stored_confidence_order_independent
        (claims claims' : list PackageRelatedVulnerability) (db : Table)
        (v p : nat) :
  pk_unique db = true ->
  unique_together db = true ->
  Permutation claims claims' ->
  option_map confidence (edge_at v p (apply_all db_checks claims db))
  = option_map confidence (edge_at v p (apply_all db_checks claims' db)).
Proof.
  intros Hu Ht Hperm.
  pose proof (proj1 (unique_together_spec db) Ht v p) as Hc.
  rewrite !apply_all_edge_at by assumption.
  rewrite !fold_merge_confidence.
  assert (Permutation (filter (accepted db_checks) (claims_on v p claims))
                      (filter (accepted db_checks) (claims_on v p claims')))
    as Hk by (apply filter_Permutation; unfold claims_on;
              now apply filter_Permutation).
  destruct (edge_at v p db) as [e0|].
  - now rewrite (max_from_Permutation _ _ _ Hk).
  - rewrite (max_confidence_Permutation _ _ Hk).
    destruct (filter (accepted db_checks) (claims_on v p claims)) as [|c ks],
             (filter (accepted db_checks) (claims_on v p claims')) as [|c' ks'];
      try reflexivity.
    + apply Permutation_length in Hk. discriminate.
    + apply Permutation_length in Hk. discriminate.
Qed.

(* ------------------------------------------------------------------ *)
(** * Further properties of set_package_url *)

Lemma fits_declared m f x :
  f <> f_qualifiers -> (fits m (f, x) <-> len x <= m f).
Proof.
  intro Hf. unfold fits. simpl. split.
  - intros [H|[_ H]]; [apply truthy_len in H; lia|assumption].
  - auto.
Qed.

Lemma fits_qualifiers m d : fits m (f_qualifiers, VDict d) <-> d = [].
Proof.
  unfold fits. simpl. split.
  - intros [H|[H _]]; [|congruence]. now destruct d.
  - intros ->. now left.
Qed.

Lemma set_fields_Ok_iff m items : forall self,
  fst (set_fields m items self) = Ok tt <-> Forall (fits m) items.
Proof.
  induction items as [|[f x] items IH]; intro self; simpl.
  - split; auto.
  - destruct (too_long m f x) as [[|]|e] eqn:T.
    + simpl. split; [discriminate|].
      intro H. inversion H as [|? ? Hfx _]; subst.
      apply too_long_false_iff in Hfx. congruence.
    + rewrite IH. split.
      * intro H. constructor; [now apply too_long_false_iff|assumption].
      * intro H. now inversion H.
    + simpl. split; [discriminate|].
      intro H. inversion H as [|? ? Hfx _]; subst.
      apply too_long_false_iff in Hfx. congruence.
Qed.

Lemma to_dict_fits_iff m u :
  Forall (fits m) (PackageURL.to_dict u)
  <-> (PackageURL.qualifiers u = []
       /\ String.length (PackageURL.type u) <= m f_type
       /\ len (PackageURL.opt (PackageURL.namespace u)) <= m f_namespace
       /\ String.length (PackageURL.name u) <= m f_name
       /\ len (PackageURL.opt (PackageURL.version u)) <= m f_version
       /\ len (PackageURL.opt (PackageURL.subpath u)) <= m f_subpath).
Proof.
  unfold PackageURL.to_dict. split.
  - intro H. repeat match goal with
                    | H : Forall _ (_ :: _) |- _ =>
                        let H1 := fresh "F" in
                        let H2 := fresh "R" in
                        inversion H as [|? ? H1 H2]; subst; clear H
                    end.
    apply fits_qualifiers in F3.
    apply fits_declared in F, F0, F1, F2, F4; try discriminate.
    simpl in F, F1. tauto.
  - intros (Hq & Ht & Hn & Hnm & Hv & Hs).
    repeat (apply Forall_cons;
            [first [ apply fits_qualifiers; assumption
                   | apply fits_declared; [discriminate|simpl; assumption] ]|]).
    apply Forall_nil.
Qed.

(** X10. [set_package_url] returns normally exactly when the package URL has no
    qualifiers and each of its five strings is at most as long as the
    [max_length] of its field; a length equal to the maximum passes. *)
Theorem set_package_url_succeeds_iff
        (m : field -> nat) (fs : string -> result PackageURL.t)
        (self : Package) (u : PackageURL.t) :
  fst (set_package_url m fs self (AsPackageURL u)) = Ok tt
  <-> (PackageURL.qualifiers u = []
       /\ String.length (PackageURL.type u) <= m f_type
       /\ len (PackageURL.opt (PackageURL.namespace u)) <= m f_namespace
       /\ String.length (PackageURL.name u) <= m f_name
       /\ len (PackageURL.opt (PackageURL.version u)) <= m f_version
       /\ len (PackageURL.opt (PackageURL.subpath u)) <= m f_subpath).
Proof.
  unfold set_package_url. rewrite set_fields_Ok_iff. apply to_dict_fits_iff.
Qed.

Lemma set_package_url_Ok_parsed m fs self arg :
  fst (set_package_url m fs self arg) = Ok tt ->
  exists u, parsed fs arg = Ok u
            /\ set_package_url m fs self arg
               = set_package_url m fs self (AsPackageURL u).
Proof.
  destruct arg as [s|u]; simpl; [|eauto].
  destruct (fs s) as [u|e]; simpl; [eauto|discriminate].
Qed.

(** X11. On success every package-URL field of the instance has been
    overwritten, whatever it held: each string is stored as given, never
    shortened, an empty or absent one as [None], and [qualifiers] as
    [None]. *)
Theorem set_package_url_overwrites
        (m : field -> nat) (fs : string -> result PackageURL.t)
        (self : Package) (arg : package_url_arg) :
  fst (set_package_url m fs self arg) = Ok tt ->
  exists u,
    parsed fs arg = Ok u
    /\ snd (set_package_url m fs self arg)
       = {| type := or_None (VStr (PackageURL.type u));
            namespace := or_None (PackageURL.opt (PackageURL.namespace u));
            name := or_None (VStr (PackageURL.name u));
            version := or_None (PackageURL.opt (PackageURL.version u));
            qualifiers := VNone;
            subpath := or_None (PackageURL.opt (PackageURL.subpath u)) |}.
Proof.
  intro H.
  destruct (set_package_url_Ok_parsed m fs self arg H) as (u & Hp & Heq).
  exists u. split; [assumption|]. rewrite Heq in *.
  unfold set_package_url in *.
  pose proof (proj1 (set_fields_Ok_iff m _ self) H) as Hfits.
  apply to_dict_fits_iff in Hfits as (Hq & _).
  rewrite (set_fields_succeeds m (PackageURL.to_dict u) self).
  - unfold PackageURL.to_dict. rewrite Hq. reflexivity.
  - apply set_fields_Ok_iff in H.
    eapply Forall_impl; [|exact H]. intros [f x]. apply too_long_false_iff.
Qed.

Lemma set_package_url_overwrites_witness :
  fst (set_package_url packageurl_max_length no_from_string
                       (setattr blank_package f_subpath (VStr "lib"))
                       (AsPackageURL deb_curl_plain)) = Ok tt
  /\ exists u,
      parsed no_from_string (AsPackageURL deb_curl_plain) = Ok u
      /\ snd (set_package_url packageurl_max_length no_from_string
                              (setattr blank_package f_subpath (VStr "lib"))
                              (AsPackageURL deb_curl_plain))
         = {| type := or_None (VStr (PackageURL.type u));
              namespace := or_None (PackageURL.opt (PackageURL.namespace u));
              name := or_None (VStr (PackageURL.name u));
              version := or_None (PackageURL.opt (PackageURL.version u));
              qualifiers := VNone;
              subpath := or_None (PackageURL.opt (PackageURL.subpath u)) |}.
Proof.
  split; [reflexivity|].
  apply (set_package_url_overwrites
           packageurl_max_length no_from_string
           (setattr blank_package f_subpath (VStr "lib"))
           (AsPackageURL deb_curl_plain)).
  reflexivity.
Defined.

Lemma too_long_message_injective f g :
  too_long_message f = too_long_message g -> f = g.
Proof.
  destruct f, g; intro H; try reflexivity; vm_compute in H; discriminate.
Qed.

Lemma set_fields_stops m done f x rest : forall self,
  Forall (fits m) done ->
  too_long m f x = Ok true ->
  fst (set_fields m (done ++ (f, x) :: rest) self)
  = Raise (ValidationError (too_long_message f)).
Proof.
  induction done as [|[g y] done IH]; intros self Hd Hf; simpl.
  - now rewrite Hf.
  - inversion Hd as [|? ? Hgy Hd']; subst.
    apply too_long_false_iff in Hgy. rewrite Hgy. now apply IH.
Qed.

(** X12. The [ValidationError] names field [f] exactly when [f] is the first
    field, in the order type, namespace, name, version, qualifiers,
    subpath, that does not pass the check: [f] has a declared [max_length]
    and a longer value, and every field before it passed. *)
Theorem set_package_url_names_first_field
        (m : field -> nat) (fs : string -> result PackageURL.t)
        (self : Package) (u : PackageURL.t) (f : field) :
  fst (set_package_url m fs self (AsPackageURL u))
  = Raise (ValidationError (too_long_message f))
  <-> exists done x rest,
      PackageURL.to_dict u = done ++ (f, x) :: rest
      /\ Forall (fits m) done
      /\ f <> f_qualifiers /\ m f < len x.
Proof.
  unfold set_package_url. split.
  - intro H.
    destruct (set_fields_raises m _ _ _ H)
      as (done & f' & x & rest & Hitems & _ & Hdone & Hstop).
    destruct Hstop as [Hr|[Ht Hmsg]].
    + apply too_long_raises in Hr. discriminate.
    + apply (f_equal (fun e => match e with
                               | ValidationError s => s
                               | _ => EmptyString
                               end)) in Hmsg.
      cbv beta iota in Hmsg. apply too_long_message_injective in Hmsg. subst f'.
      exists done, x, rest. apply too_long_true_iff in Ht as [Hf Hlen].
      repeat split; try assumption.
      eapply Forall_impl; [|exact Hdone]. intros [g y]. apply too_long_false_iff.
  - intros (done & x & rest & Hitems & Hdone & Hf & Hlen).
    rewrite Hitems. apply set_fields_stops; [assumption|].
    now apply too_long_true_iff.
Qed.

Lemma too_long_qualifiers m d :
  d <> [] -> too_long m f_qualifiers (VDict d) = Raise TypeError.
Proof. intro H. destruct d; [congruence|reflexivity]. Qed.

Lemma set_package_url_first_unfit m fs self u :
  PackageURL.qualifiers u <> [] ->
  fst (set_package_url m fs self (AsPackageURL u)) = Raise TypeError
  \/ exists done f x rest,
      firstn 4 (PackageURL.to_dict u) = done ++ (f, x) :: rest
      /\ Forall (fits m) done
      /\ m f < len x
      /\ fst (set_package_url m fs self (AsPackageURL u))
         = Raise (ValidationError (too_long_message f)).
Proof.
  intro Hq. unfold set_package_url, PackageURL.to_dict.
  assert (forall f, field_eqb f f_qualifiers = false -> f <> f_qualifiers) as Hne
    by (intros f E ->; discriminate).
  cbn [set_fields firstn].
  pose proof (Hne f_type eq_refl) as N.
  destruct (too_long_decides m f_type (VStr (PackageURL.type u)) (or_introl N))
    as [[|] T1]; rewrite T1; clear N.
  { right. apply too_long_true in T1 as [_ T1].
    eexists [], f_type, _, _. repeat split; auto. }
  pose proof (Hne f_namespace eq_refl) as N.
  destruct (too_long_decides m f_namespace
                             (PackageURL.opt (PackageURL.namespace u))
                             (or_introl N))
    as [[|] T2]; rewrite T2; clear N.
  { right. apply too_long_true in T2 as [_ T2]. apply too_long_false_iff in T1.
    eexists [_], f_namespace, _, _. repeat split; auto. }
  pose proof (Hne f_name eq_refl) as N.
  destruct (too_long_decides m f_name (VStr (PackageURL.name u)) (or_introl N))
    as [[|] T3]; rewrite T3; clear N.
  { right. apply too_long_true in T3 as [_ T3].
    apply too_long_false_iff in T1, T2.
    eexists [_; _], f_name, _, _. repeat split; auto. }
  pose proof (Hne f_version eq_refl) as N.
  destruct (too_long_decides m f_version
                             (PackageURL.opt (PackageURL.version u))
                             (or_introl N))
    as [[|] T4]; rewrite T4; clear N.
  { right. apply too_long_true in T4 as [_ T4].
    apply too_long_false_iff in T1, T2, T3.
    eexists [_; _; _], f_version, _, _. repeat split; auto. }
  left. now rewrite (too_long_qualifiers m _ Hq).
Qed.

(** X13. A package URL with qualifiers always makes [set_package_url] raise,
    and [qualifiers] and [subpath] of the instance are never assigned: the
    call raises [TypeError] exactly when the four fields before [qualifiers]
    pass the check, and otherwise the [ValidationError] naming the first of
    those four whose value is too long. *)
Theorem set_package_url_with_qualifiers
        (m : field -> nat) (fs : string -> result PackageURL.t)
        (self : Package) (u : PackageURL.t) :
  PackageURL.qualifiers u <> [] ->
  (exists e, fst (set_package_url m fs self (AsPackageURL u)) = Raise e)
  /\ qualifiers (snd (set_package_url m fs self (AsPackageURL u)))
     = qualifiers self
  /\ subpath (snd (set_package_url m fs self (AsPackageURL u)))
     = subpath self
  /\ (fst (set_package_url m fs self (AsPackageURL u)) = Raise TypeError
      <-> (String.length (PackageURL.type u) <= m f_type
           /\ len (PackageURL.opt (PackageURL.namespace u)) <= m f_namespace
           /\ String.length (PackageURL.name u) <= m f_name
           /\ len (PackageURL.opt (PackageURL.version u)) <= m f_version))
  /\ (fst (set_package_url m fs self (AsPackageURL u)) = Raise TypeError
      \/ exists done f x rest,
          firstn 4 (PackageURL.to_dict u) = done ++ (f, x) :: rest
          /\ Forall (fits m) done
          /\ m f < len x
          /\ fst (set_package_url m fs self (AsPackageURL u))
             = Raise (ValidationError (too_long_message f))).
Proof.
  intro Hq.
  pose proof (set_package_url_first_unfit m fs self u Hq) as Hfirst.
  revert Hfirst.
  unfold set_package_url, PackageURL.to_dict.
  assert (forall f, field_eqb f f_qualifiers = false -> f <> f_qualifiers) as Hne
    by (intros f E ->; discriminate).
  cbn [set_fields firstn].
  pose proof (Hne f_type eq_refl) as N.
  destruct (too_long_decides m f_type (VStr (PackageURL.type u))
                             (or_introl N))
    as [[|] T1]; rewrite T1; clear N.
  { apply too_long_true in T1 as [_ T1]. simpl in T1.
    intro Hfirst. repeat split; cbn [fst snd]; eauto; try discriminate. intros (H & _). lia. }
  pose proof (Hne f_namespace eq_refl) as N.
  destruct (too_long_decides m f_namespace (PackageURL.opt (PackageURL.namespace u))
                             (or_introl N))
    as [[|] T2]; rewrite T2; clear N.
  { apply too_long_true in T2 as [_ T2].
    intro Hfirst. repeat split; cbn [fst snd]; eauto; try discriminate. intros (_ & H & _). lia. }
  pose proof (Hne f_name eq_refl) as N.
  destruct (too_long_decides m f_name (VStr (PackageURL.name u))
                             (or_introl N))
    as [[|] T3]; rewrite T3; clear N.
  { apply too_long_true in T3 as [_ T3]. simpl in T3.
    intro Hfirst. repeat split; cbn [fst snd]; eauto; try discriminate. intros (_ & _ & H & _). lia. }
  pose proof (Hne f_version eq_refl) as N.
  destruct (too_long_decides m f_version (PackageURL.opt (PackageURL.version u))
                             (or_introl N))
    as [[|] T4]; rewrite T4; clear N.
  { apply too_long_true in T4 as [_ T4].
    intro Hfirst. repeat split; cbn [fst snd]; eauto; try discriminate. intros (_ & _ & _ & H). lia. }
  rewrite (too_long_qualifiers m _ Hq).
  apply too_long_false_iff, fits_declared in T1, T2, T3, T4; try discriminate.
  simpl in T1, T3. intro Hfirst. repeat split; cbn [fst snd]; eauto.
Qed.

Lemma set_package_url_with_qualifiers_witness :
  PackageURL.qualifiers deb_curl <> []
  /\ fst (set_package_url packageurl_max_length no_from_string blank_package
                          (AsPackageURL deb_curl)) = Raise TypeError.
Proof.
  assert (PackageURL.qualifiers deb_curl <> []) as Hq by (simpl; discriminate).
  split; [exact Hq|].
  apply (proj1 (proj2 (proj2 (proj2 (set_package_url_with_qualifiers
                                packageurl_max_length no_from_string
                                blank_package deb_curl Hq))))).
  vm_compute. repeat split; apply Nat.leb_le; reflexivity.
Defined.

(* ------------------------------------------------------------------ *)
(** * Further properties of two concurrent callers *)

(** X14. However the statements of two callers interleave, primary keys stay
    distinct and no pair gets a second row: the unique constraint refuses
    the losing [create]. *)
Theorem race_keeps_unique_together
        (a b : PackageRelatedVulnerability) (db : Table) (schedule : list bool) :
  pk_unique db = true ->
  unique_together db = true ->
  pk_unique (Race.table (Race.run db_checks schedule (Race.racing a b db)))
  = true
  /\ unique_together
       (Race.table (Race.run db_checks schedule (Race.racing a b db)))
     = true.
Proof.
  intros Hu Ht.
  destruct (race_never_duplicates schedule (Race.racing a b db))
    as (Hu' & Hc' & _).
  - repeat split; simpl; auto. now apply unique_together_spec.
  - split; [assumption|]. now apply unique_together_spec.
Qed.

Lemma step_fetched_fresh a db :
  Race.step db_checks
            (Race.Fetched a (objects_get (vulnerability a) (package a) db)) db
  = (Race.Returned (fst (update_or_create db_checks a db)),
     snd (update_or_create db_checks a db)).
Proof. exact (step_step_update_or_create a db). Qed.

Lemma honoured_table a c db :
  honoured db_checks a c db ->
  snd (Race.step db_checks c db) = db
  \/ snd (Race.step db_checks c db) = snd (update_or_create db_checks a db).
Proof.
  destruct c as [a'|a' got|o]; intro H; simpl in H.
  - now left.
  - destruct H as [-> ->]. right. now rewrite step_fetched_fresh.
  - now left.
Qed.

Lemma honoured_own_step a c db :
  pk_unique db = true ->
  pair_count (vulnerability a) (package a) db <= 1 ->
  honoured db_checks a c db ->
  honoured db_checks a (fst (Race.step db_checks c db))
           (snd (Race.step db_checks c db)).
Proof.
  intros Hu Hc. destruct c as [a'|a' got|o]; intro H; simpl in H.
  - subst a'. simpl. auto.
  - destruct H as [-> ->]. rewrite step_fetched_fresh. simpl fst. simpl snd.
    pose proof (update_or_create_get_same a db Hu) as S. revert S.
    unfold accepted.
    destruct (update_or_create_case a db) as [G A|pk e G Hlt A|pk e G Hge|G|x G R|pk e x G Hlt R];
      rewrite G; intro S; simpl.
    + rewrite A in S. exists (next_pk db), a. split; [assumption|lia].
    + rewrite A in S. pose proof Hlt as Hb. apply Z.ltb_lt in Hb.
      rewrite Hb in S. simpl in S.
      exists pk, (overwrite e a). split; [assumption|]. simpl. lia.
    + exists pk, e. auto.
    + exfalso. revert G. now apply objects_get_not_multiple.
    + assumption.
    + assumption.
  - simpl. exact H.
Qed.

Lemma honoured_same_rows a c db db' :
  filter (same_pair (vulnerability a) (package a)) db'
  = filter (same_pair (vulnerability a) (package a)) db ->
  honoured db_checks a c db -> honoured db_checks a c db'.
Proof.
  intro F.
  assert (objects_get (vulnerability a) (package a) db'
          = objects_get (vulnerability a) (package a) db) as G
      by (unfold objects_get; now rewrite F).
  destruct c as [a'|a' got|[l|x]]; simpl; try rewrite G; auto.
Qed.

Lemma honoured_other_step a b ca cb db :
  pk_unique db = true ->
  (vulnerability a, package a) <> (vulnerability b, package b) ->
  honoured db_checks a ca db -> honoured db_checks b cb db ->
  honoured db_checks a ca (snd (Race.step db_checks cb db)).
Proof.
  intros Hu Hne Ha Hb.
  destruct (honoured_table b cb db Hb) as [E|E]; rewrite E; [assumption|].
  apply (honoured_same_rows a ca db); [|assumption].
  apply update_or_create_filter_other; [assumption|]. congruence.
Qed.

Lemma honoured_step_tables a c db :
  pk_unique db = true ->
  (forall v p, pair_count v p db <= 1) ->
  honoured db_checks a c db ->
  pk_unique (snd (Race.step db_checks c db)) = true
  /\ forall v p, pair_count v p (snd (Race.step db_checks c db)) <= 1.
Proof.
  intros Hu Hc Ha.
  destruct (honoured_table a c db Ha) as [E|E]; rewrite E.
  - auto.
  - split; [now apply update_or_create_pk_unique|].
    intros v p. now apply update_or_create_pair_count.
Qed.

Lemma race_honours schedule a b : forall s,
  (vulnerability a, package a) <> (vulnerability b, package b) ->
  pk_unique (Race.table s) = true ->
  (forall v p, pair_count v p (Race.table s) <= 1) ->
  honoured db_checks a (Race.first s) (Race.table s) ->
  honoured db_checks b (Race.second s) (Race.table s) ->
  honoured db_checks a (Race.first (Race.run db_checks schedule s))
           (Race.table (Race.run db_checks schedule s))
  /\ honoured db_checks b (Race.second (Race.run db_checks schedule s))
              (Race.table (Race.run db_checks schedule s)).
Proof.
  induction schedule as [|who sch IH]; intros s Hne Hu Hc Ha Hb; [auto|].
  simpl. unfold Race.sched_step. destruct who.
  - pose proof (honoured_own_step a _ _ Hu (Hc _ _) Ha) as Ha'.
    pose proof (honoured_other_step b a _ _ _ Hu (not_eq_sym Hne) Hb Ha) as Hb'.
    destruct (honoured_step_tables a _ _ Hu Hc Ha) as [Hu' Hc'].
    destruct (Race.step db_checks (Race.first s) (Race.table s)) as [c d].
    apply IH; assumption.
  - pose proof (honoured_own_step b _ _ Hu (Hc _ _) Hb) as Hb'.
    pose proof (honoured_other_step a b _ _ _ Hu Hne Ha Hb) as Ha'.
    destruct (honoured_step_tables b _ _ Hu Hc Hb) as [Hu' Hc'].
    destruct (Race.step db_checks (Race.second s) (Race.table s)) as [c d].
    apply IH; assumption.
Qed.

(** X15. Two callers whose claims name different pairs do not disturb each
    other, however their statements interleave.  A call that has returned
    normally has left, from then on, an edge for its pair whose confidence
    is at least the claim's; a call that has raised was refused its write
    by the database, with the exception it raised: a claim the database
    accepts never raises. *)
Theorem race_on_distinct_pairs
        (a b : PackageRelatedVulnerability) (db : Table) (schedule : list bool) :
  pk_unique db = true ->
  unique_together db = true ->
  (vulnerability a, package a) <> (vulnerability b, package b) ->
  (forall o,
      Race.first (Race.run db_checks schedule (Race.racing a b db))
      = Race.Returned o ->
      match o with
      | Ok _ =>
          exists pk e,
            objects_get (vulnerability a) (package a)
              (Race.table (Race.run db_checks schedule (Race.racing a b db)))
            = Ok (pk, e)
            /\ (confidence a <= confidence e)%Z
      | Raise x => db_checks a = Some x
      end)
  /\
  (forall o,
      Race.second (Race.run db_checks schedule (Race.racing a b db))
      = Race.Returned o ->
      match o with
      | Ok _ =>
          exists pk e,
            objects_get (vulnerability b) (package b)
              (Race.table (Race.run db_checks schedule (Race.racing a b db)))
            = Ok (pk, e)
            /\ (confidence b <= confidence e)%Z
      | Raise x => db_checks b = Some x
      end).
Proof.
  intros Hu Ht Hne.
  destruct (race_honours schedule a b (Race.racing a b db)) as [Ha Hb];
    simpl; auto.
  { now apply unique_together_spec. }
  split; intros o E; [rewrite E in Ha; exact Ha|rewrite E in Hb; exact Hb].
Qed.

End Properties.

(* ------------------------------------------------------------------ *)
(** * The theorems at concrete tables and claims *)

Lemma update_or_create_transitions_witness :
  (pk_unique [(1, sample_claim 60 false "istio")] = true
   /\ objects_get 3 7 [(1, sample_claim 60 false "istio")]
      = Ok (1, sample_claim 60 false "istio")
   /\ (60 < 90)%Z
   /\ column_checks PostgreSQL (sample_claim 90 true "nginx") = None)
  /\ objects_get 3 7 (snd (update_or_create (column_checks PostgreSQL)
                                            (sample_claim 90 true "nginx")
                                            [(1, sample_claim 60 false "istio")]))
     = Ok (1, sample_claim 90 true "nginx").
Proof.
  split; [repeat split|].
  refine (proj1 (proj1 (proj2 (update_or_create_transitions
                                 (column_checks PostgreSQL)
                                 (sample_claim 90 true "nginx")
                                 [(1, sample_claim 60 false "istio")] _))
                       1 (sample_claim 60 false "istio") _) _ _).
  - reflexivity.
  - reflexivity.
  - reflexivity.
  - reflexivity.
Defined.

Lemma one_edge_per_pair_witness :
  (pk_unique [(1, sample_claim 60 false "istio")] = true
   /\ unique_together [(1, sample_claim 60 false "istio")] = true)
  /\ unique_together
       (apply_all (column_checks PostgreSQL)
                  [sample_claim 90 true "nginx"; sample_claim 90 false "debian";
                   new_relation 7 4]
                  [(1, sample_claim 60 false "istio")]) = true.
Proof.
  split; [split; reflexivity|].
  refine (proj1 (one_edge_per_pair (column_checks PostgreSQL) _
                                   [(1, sample_claim 60 false "istio")] _ _)).
  - reflexivity.
  - reflexivity.
Defined.

Lemma update_or_create_frame_witness :
  (pk_unique [(1, sample_claim 60 false "istio"); (2, new_relation 7 4)] = true
   /\ objects_get 3 7 [(1, sample_claim 60 false "istio"); (2, new_relation 7 4)]
      = Ok (1, sample_claim 60 false "istio"))
  /\ exists e',
      objects_get 3 7 (snd (update_or_create (column_checks PostgreSQL)
                                             (sample_claim 60 true "nginx")
                                             [(1, sample_claim 60 false "istio");
                                              (2, new_relation 7 4)]))
      = Ok (1, e')
      /\ e' = sample_claim 60 false "istio".
Proof.
  split; [split; reflexivity|].
  destruct (update_or_create_frame
              (column_checks PostgreSQL)
              (sample_claim 60 true "nginx")
              [(1, sample_claim 60 false "istio"); (2, new_relation 7 4)]
              1 (sample_claim 60 false "istio"))
    as (e' & Hget & _ & _ & _ & _ & Hkeep).
  - reflexivity.
  - reflexivity.
  - exists e'. split; [exact Hget|]. apply Hkeep. simpl. lia.
Defined.

Lemma apply_all_keeps_maximum_witness :
  (pk_unique [(5, new_relation 1 1)] = true
   /\ objects_get 3 7 [(5, new_relation 1 1)] = Raise DoesNotExist
   /\ 0 < List.length
            (claims_on 3 7 [sample_claim 60 false "istio"; new_relation 7 4;
                            sample_claim 90 true "nginx";
                            sample_claim 90 false "debian"])
   /\ forallb (accepted (column_checks SQLite))
              (claims_on 3 7 [sample_claim 60 false "istio"; new_relation 7 4;
                              sample_claim 90 true "nginx";
                              sample_claim 90 false "debian"]) = true)
  /\ exists pk e c,
      objects_get 3 7
        (apply_all (column_checks SQLite)
                   [sample_claim 60 false "istio"; new_relation 7 4;
                    sample_claim 90 true "nginx"; sample_claim 90 false "debian"]
                   [(5, new_relation 1 1)]) = Ok (pk, e)
      /\ confidence e = 90%Z
      /\ first_of_max [sample_claim 60 false "istio";
                       sample_claim 90 true "nginx";
                       sample_claim 90 false "debian"] = Some c
      /\ fix_ e = fix_ c
      /\ created_by e = created_by c.
Proof.
  split; [repeat split; simpl; lia|].
  apply (apply_all_keeps_maximum
           (column_checks SQLite)
           [sample_claim 60 false "istio"; new_relation 7 4;
            sample_claim 90 true "nginx"; sample_claim 90 false "debian"]
           [(5, new_relation 1 1)] 3 7).
  - reflexivity.
  - reflexivity.
  - simpl. lia.
  - reflexivity.
Defined.

Lemma failure_effects_witness :
  (fst (update_or_create (column_checks PostgreSQL)
                         (sample_claim 3000000000 true "nginx")
                         [(1, sample_claim 60 false "istio")])
   = Raise DataError
   /\ fst (set_package_url packageurl_max_length no_from_string blank_package
                           (AsPackageURL deb_long_name))
      = Raise (ValidationError (too_long_message f_name)))
  /\
  (snd (update_or_create (column_checks PostgreSQL)
                         (sample_claim 3000000000 true "nginx")
                         [(1, sample_claim 60 false "istio")])
   = [(1, sample_claim 60 false "istio")]
   /\ exists done f x rest,
       PackageURL.to_dict deb_long_name = done ++ (f, x) :: rest
       /\ Forall (fits packageurl_max_length) done
       /\ snd (set_package_url packageurl_max_length no_from_string blank_package
                               (AsPackageURL deb_long_name))
          = assign_all done blank_package).
Proof.
  split; [split; reflexivity|].
  destruct (failure_effects (column_checks PostgreSQL)
              packageurl_max_length no_from_string
              (sample_claim 3000000000 true "nginx")
              [(1, sample_claim 60 false "istio")]
              DataError
              blank_package (AsPackageURL deb_long_name)
              (ValidationError (too_long_message f_name))) as [Hstore Hpkg].
  split.
  - apply Hstore. reflexivity.
  - destruct (Hpkg eq_refl) as (done & f & x & rest & Hitems & Hfits & _ & Hs & _).
    exists done, f, x, rest. repeat split; assumption.
Defined.

Lemma update_or_create_idempotent_witness :
  pk_unique [(1, sample_claim 60 false "istio")] = true
  /\ snd (update_or_create
            (column_checks PostgreSQL)
            (sample_claim 90 true "nginx")
            (snd (update_or_create (column_checks PostgreSQL)
                                   (sample_claim 90 true "nginx")
                                   [(1, sample_claim 60 false "istio")])))
     = snd (update_or_create (column_checks PostgreSQL)
                             (sample_claim 90 true "nginx")
                             [(1, sample_claim 60 false "istio")]).
Proof.
  split; [reflexivity|].
  apply (update_or_create_idempotent (column_checks PostgreSQL)
                                     (sample_claim 90 true "nginx")
                                     [(1, sample_claim 60 false "istio")]).
  reflexivity.
Defined.

Lemma apply_all_other_pairs_witness :
  (pk_unique [(1, sample_claim 60 false "istio"); (2, new_relation 7 4)] = true
   /\ List.length (claims_on 4 7 [sample_claim 90 true "nginx";
                                  new_relation 8 3]) = 0)
  /\ filter (same_pair 4 7)
            (apply_all (column_checks PostgreSQL)
                       [sample_claim 90 true "nginx"; new_relation 8 3]
                       [(1, sample_claim 60 false "istio"); (2, new_relation 7 4)])
     = [(2, new_relation 7 4)].
Proof.
  split; [split; reflexivity|].
  apply (apply_all_other_pairs
           (column_checks PostgreSQL)
           [sample_claim 90 true "nginx"; new_relation 8 3]
           [(1, sample_claim 60 false "istio"); (2, new_relation 7 4)] 4 7);
    reflexivity.
Defined.

Lemma apply_all_from_present_witness :
  (pk_unique [(1, sample_claim 60 false "istio")] = true
   /\ objects_get 3 7 [(1, sample_claim 60 false "istio")]
      = Ok (1, sample_claim 60 false "istio"))
  /\ exists e,
      objects_get 3 7 (apply_all (column_checks PostgreSQL)
                                 [sample_claim 40 true "nginx";
                                  sample_claim 3000000000 true "debian"]
                                 [(1, sample_claim 60 false "istio")])
      = Ok (1, e)
      /\ confidence e = 60%Z.
Proof.
  split; [split; reflexivity|].
  destruct (apply_all_from_present
              (column_checks PostgreSQL)
              [sample_claim 40 true "nginx"; sample_claim 3000000000 true "debian"]
              [(1, sample_claim 60 false "istio")] 3 7 1
              (sample_claim 60 false "istio"))
    as (e & Hget & _ & _ & Hconf & _).
  - reflexivity.
  - reflexivity.
  - exists e. split; [exact Hget|]. rewrite Hconf. reflexivity.
Defined.

Lemma apply_all_edges_witness :
  (pk_unique [(1, sample_claim 60 false "istio")] = true
   /\ unique_together [(1, sample_claim 60 false "istio")] = true
   /\ 0 < List.length (filter (accepted (column_checks PostgreSQL))
                              (claims_on 4 7 [new_relation 7 4])))
  /\ exists r,
      objects_get 4 7 (apply_all (column_checks PostgreSQL) [new_relation 7 4]
                                 [(1, sample_claim 60 false "istio")]) = Ok r.
Proof.
  split; [repeat split; simpl; lia|].
  apply (proj2 (apply_all_edges (column_checks PostgreSQL) [new_relation 7 4]
                                [(1, sample_claim 60 false "istio")] 4 7
                                eq_refl eq_refl)).
  right. simpl. lia.
Defined.

Lemma applied_claims_are_stored_witness :
  (pk_unique [(1, sample_claim 60 false "istio")] = true
   /\ unique_together [(1, sample_claim 60 false "istio")] = true
   /\ In (sample_claim 40 true "nginx")
         [new_relation 7 4; sample_claim 40 true "nginx"]
   /\ column_checks PostgreSQL (sample_claim 40 true "nginx") = None)
  /\ exists pk e,
      objects_get 3 7 (apply_all (column_checks PostgreSQL)
                                 [new_relation 7 4; sample_claim 40 true "nginx"]
                                 [(1, sample_claim 60 false "istio")])
      = Ok (pk, e)
      /\ (40 <= confidence e)%Z.
Proof.
  split; [repeat split; simpl; auto|].
  apply (applied_claims_are_stored
           (column_checks PostgreSQL)
           [new_relation 7 4; sample_claim 40 true "nginx"]
           [(1, sample_claim 60 false "istio")]
           (sample_claim 40 true "nginx")).
  - reflexivity.
  - reflexivity.
  - simpl. auto.
  - reflexivity.
Defined.

Lemma stored_confidence_order_independent_witness :
  (pk_unique [(1, new_relation 7 4)] = true
   /\ unique_together [(1, new_relation 7 4)] = true
   /\ Permutation [sample_claim 60 false "istio"; sample_claim 90 true "nginx"]
                  [sample_claim 90 true "nginx"; sample_claim 60 false "istio"])
  /\ option_map confidence
       (edge_at 3 7 (apply_all (column_checks PostgreSQL)
                               [sample_claim 60 false "istio";
                                sample_claim 90 true "nginx"]
                               [(1, new_relation 7 4)]))
     = option_map confidence
         (edge_at 3 7 (apply_all (column_checks PostgreSQL)
                                 [sample_claim 90 true "nginx";
                                  sample_claim 60 false "istio"]
                                 [(1, new_relation 7 4)])).
Proof.
  split; [repeat split; apply perm_swap|].
  apply stored_confidence_order_independent.
  - reflexivity.
  - reflexivity.
  - apply perm_swap.
Defined.

Lemma race_keeps_unique_together_witness :
  (pk_unique [(1, sample_claim 10 false "debian")] = true
   /\ unique_together [(1, sample_claim 10 false "debian")] = true)
  /\ unique_together
       (Race.table (Race.run (column_checks PostgreSQL)
                             [true; false; false; true]
                             (Race.racing (sample_claim 60 false "istio")
                                          (new_relation 7 4)
                                          [(1, sample_claim 10 false "debian")])))
     = true.
Proof.
  split; [split; reflexivity|].
  apply (race_keeps_unique_together
           (column_checks PostgreSQL)
           (sample_claim 60 false "istio") (new_relation 7 4)
           [(1, sample_claim 10 false "debian")] [true; false; false; true]);
    reflexivity.
Defined.

Lemma race_on_distinct_pairs_witness :
  (pk_unique [(1, sample_claim 10 false "debian")] = true
   /\ unique_together [(1, sample_claim 10 false "debian")] = true
   /\ (3, 7) <> (4, 7))
  /\ exists pk e,
      objects_get 4 7
        (Race.table (Race.run (column_checks PostgreSQL)
                              [true; false; false; true]
                              (Race.racing (sample_claim 60 false "istio")
                                           (new_relation 7 4)
                                           [(1, sample_claim 10 false "debian")])))
      = Ok (pk, e)
      /\ (100 <= confidence e)%Z.
Proof.
  assert ((3, 7) <> (4, 7)) as Hne by discriminate.
  split; [repeat split; exact Hne|].
  apply (proj2 (race_on_distinct_pairs
                  (column_checks PostgreSQL)
                  (sample_claim 60 false "istio") (new_relation 7 4)
                  [(1, sample_claim 10 false "debian")]
                  [true; false; false; true] eq_refl eq_refl Hne)
               (Ok (NewRelationship 7 4 false 100))).
  reflexivity.
Defined.
